(** * fastrand: a shallow embedding of the Go package and its properties

    The package draws raw 32- and 64-bit words from the Go runtime and builds
    bounded samplers, float generators, a Fisher-Yates shuffle, a buffer
    filler and a jitter function on top of them.  The runtime generator is an
    opaque collaborator: it is modelled as an infinite stream of words with a
    cursor.  Everything else is translated function by function from
    [fastrand.go] and the two build-specific files. *)

From Stdlib Require Import ZArith Zpower Lia List Bool QArith Qpower.
From Stdlib Require Import Floats.SpecFloat.
From stdpp Require Import base list strings.

Local Open Scope Z_scope.

(** ** Fixed-width integers

    Go integers are modelled as [Z]; every conversion to a fixed-width type
    is written out as a wrap-around. *)

Definition uint32 (z : Z) : Z := z mod 2 ^ 32.
Definition uint64 (z : Z) : Z := z mod 2 ^ 64.
Definition int32 (z : Z) : Z := (z + 2 ^ 31) mod 2 ^ 32 - 2 ^ 31.
Definition int64 (z : Z) : Z := (z + 2 ^ 63) mod 2 ^ 64 - 2 ^ 63.
Definition byte (z : Z) : Z := z mod 2 ^ 8.

(** The constants of [fastrand.go]. *)
Definition maxUint32 : Z := Z.shiftl 1 32 - 1.
Definition maxUint64 : Z := Z.shiftl 1 64 - 1.
Definition maxInt32 : Z := Z.shiftr maxUint32 1.
Definition maxInt64 : Z := Z.shiftr maxUint64 1.

(** ** The word source and the monad of the package

    [words] is the sequence of raw words the runtime generator will hand
    out, [cursor] the number of words drawn so far.  A computation either
    returns a value and a new source, panics (the source at the moment of
    the panic is kept, so that one can see how many words were drawn), or
    leaves the behaviour the language defines (an unsafe store outside the
    object it was aimed at), or runs out of the fuel that bounds the
    rejection loops. *)

Record Source := mkSource { words : nat -> Z; cursor : nat }.

Definition advance (s : Source) : Source :=
  {| words := words s; cursor := S (cursor s) |}.

Definition skip (k : nat) (s : Source) : Source :=
  {| words := words s; cursor := (cursor s + k)%nat |}.

Definition peek (k : nat) (s : Source) : Z := words s (cursor s + k)%nat.

Inductive outcome (A : Type) : Type :=
| Ret (a : A) (s : Source)
| Panic (msg : string) (s : Source)
| Undefined (msg : string)
| OutOfFuel.
Arguments Ret {A} a s.
Arguments Panic {A} msg s.
Arguments Undefined {A} msg.
Arguments OutOfFuel {A}.

Definition M (A : Type) : Type := Source -> outcome A.

#[global] Instance M_ret : MRet M := fun A a s => Ret a s.
#[global] Instance M_bind : MBind M := fun A B f m s =>
  match m s with
  | Ret a s' => f a s'
  | Panic msg s' => Panic msg s'
  | Undefined msg => Undefined msg
  | OutOfFuel => OutOfFuel
  end.

Definition panic {A} (msg : string) : M A := fun s => Panic msg s.
Definition undefined {A} (msg : string) : M A := fun _ => Undefined msg.
Definition out_of_fuel {A} : M A := fun _ => OutOfFuel.

(** The runtime primitives [u32] and [u64]: the next word of the stream,
    truncated to the width asked for. *)
Definition u32 : M Z := fun s => Ret (uint32 (peek 0 s)) (advance s).
Definition u64 : M Z := fun s => Ret (uint64 (peek 0 s)) (advance s).

(** Go's [%] on integers: truncated remainder, run-time panic on a zero
    divisor. *)
Definition go_rem (a n : Z) : M Z :=
  if n =? 0 then panic "runtime error: integer divide by zero"
  else mret (Z.rem a n).

(** ** Integer samplers *)

(** [Int31]: [int32(u32() >> 1)]. *)
Definition Int31 : M Z := w ← u32; mret (int32 (Z.shiftr w 1)).

(** [Int63]: [int64(u64() >> 1)]. *)
Definition Int63 : M Z := w ← u64; mret (int64 (Z.shiftr w 1)).

(** [Uint32] and [Uint64]. *)
Definition Uint32 : M Z := u32.
Definition Uint64 : M Z := u64.

(** The loop [for v >= max { v = draw() }] shared by the four bounded
    samplers. *)
Fixpoint reject_loop (fuel : nat) (draw : M Z) (max v : Z) : M Z :=
  if max <=? v then
    match fuel with
    | O => out_of_fuel
    | S fuel' => v' ← draw; reject_loop fuel' draw max v'
    end
  else mret v.

Definition Int31n (fuel : nat) (n : Z) : M Z :=
  if n <=? 0 then panic "fastrand.Int31n: invalid argument"
  else if Z.land n (int32 (n - 1)) =? 0 then
    v ← Int31; mret (Z.land v (int32 (n - 1)))
  else
    r ← go_rem maxInt32 n;
    let max := int32 (maxInt32 - r) in
    v ← Int31;
    v ← reject_loop fuel Int31 max v;
    go_rem v n.

Definition Int63n (fuel : nat) (n : Z) : M Z :=
  if n <=? 0 then panic "fastrand.Int63n: invalid argument"
  else if Z.land n (int64 (n - 1)) =? 0 then
    v ← Int63; mret (Z.land v (int64 (n - 1)))
  else
    r ← go_rem maxInt64 n;
    let max := int64 (maxInt64 - r) in
    v ← Int63;
    v ← reject_loop fuel Int63 max v;
    go_rem v n.

Definition Uint64nUint32n (fuel : nat) (n : Z) : M Z :=
  if Z.land n (uint32 (n - 1)) =? 0 then
    v ← u32; mret (Z.land v (uint32 (n - 1)))
  else
    r ← go_rem maxUint32 (uint32 n);
    let max := uint32 (maxUint32 - r) in
    v ← u32;
    v ← reject_loop fuel u32 max v;
    go_rem v n.

Definition Uint64n (fuel : nat) (n : Z) : M Z :=
  if Z.land n (uint64 (n - 1)) =? 0 then
    v ← u64; mret (Z.land v (uint64 (n - 1)))
  else
    r ← go_rem maxUint64 (uint64 n);
    let max := uint64 (maxUint64 - r) in
    v ← u64;
    v ← reject_loop fuel u64 max v;
    go_rem v n.

(** ** Shuffle *)

Section Shuffle.
Context {E : Type}.

(** [s[i]] with Go's bounds check. *)
Definition index (s : list E) (i : Z) : option E :=
  if i <? 0 then None else s !! Z.to_nat i.

(** [s[i], s[j] = s[j], s[i]]: both operands are read (and
    bounds-checked) first, then the two stores happen in order. *)
Definition swap (s : list E) (i j : Z) : M (list E) :=
  match index s j, index s i with
  | Some x, Some y => mret (<[Z.to_nat j := y]> (<[Z.to_nat i := x]> s))
  | _, _ => panic "runtime error: index out of range"
  end.

(** [for ; i >= maxInt32-1; i-- { j := Int63n(int64(i + 1)); swap }].
    [k] bounds the number of iterations of the loop; [Shuffle] passes
    [len(s)], which is more than either loop needs. *)
Fixpoint shuffle_wide (fuel k : nat) (i : Z) (s : list E) : M (Z * list E) :=
  if maxInt32 - 1 <=? i then
    match k with
    | O => out_of_fuel
    | S k' =>
        j ← Int63n fuel (int64 (i + 1));
        s' ← swap s i j;
        shuffle_wide fuel k' (i - 1) s'
    end
  else mret (i, s).

(** [for ; i > 0; i-- { j := Int31n(int32(i + 1)); swap }]. *)
Fixpoint shuffle_narrow (fuel k : nat) (i : Z) (s : list E) : M (list E) :=
  if 0 <? i then
    match k with
    | O => out_of_fuel
    | S k' =>
        j ← Int31n fuel (int32 (i + 1));
        s' ← swap s i j;
        shuffle_narrow fuel k' (i - 1) s'
    end
  else mret s.

Definition Shuffle (fuel : nat) (s : list E) : M (list E) :=
  let k := length s in
  let i := Z.of_nat (length s) - 1 in
  '(i, s) ← shuffle_wide fuel k i s;
  shuffle_narrow fuel k i s.
End Shuffle.

(** ** Byte buffers: [putU64], [fill], [Fill] and the reader

    A byte slice is a window [off, off+len) into a backing array; the array
    is passed explicitly and returned updated, so that [p = p[8:]] aliases
    the same bytes as in Go. *)

Record slice := mkSlice { off : nat; len : nat }.

Definition within (p : slice) (mem : list Z) : Prop :=
  (off p + len p <= length mem)%nat.

(** [p[k:]]. *)
Definition reslice (p : slice) (k : nat) : M slice :=
  if (k <=? len p)%nat then mret {| off := (off p + k)%nat; len := (len p - k)%nat |}
  else panic "runtime error: slice bounds out of range".

(** [p[i] = b]. *)
Definition store (p : slice) (i : nat) (b : Z) (mem : list Z) : M (list Z) :=
  if (i <? len p)%nat then mret (<[(off p + i)%nat := b]> mem)
  else panic "runtime error: index out of range".

(** The byte order of the machine the program runs on. *)
Inductive ByteOrder := LittleEndian | BigEndian.

(** The bytes of [v], least significant first. *)
Definition le_bytes (n : nat) (v : Z) : list Z :=
  map (fun i : nat => byte (Z.shiftr v (Z.of_nat i * 8))) (seq 0 n).

Definition host_bytes (bo : ByteOrder) (n : nat) (v : Z) : list Z :=
  match bo with
  | LittleEndian => le_bytes n v
  | BigEndian => rev (le_bytes n v)
  end.

(** Overwrite [mem] from position [o] on with [bs]. *)
Definition blit (o : nat) (bs : list Z) (mem : list Z) : list Z :=
  take o mem ++ bs ++ drop (o + length bs) mem.

(** [putU64] of the default build (tag [!safe]): the address of [p[0]] is
    cast to a pointer to uint64 through [unsafe.Pointer] and [v] is stored
    there.  Taking the address of [p[0]] is bounds-checked; the store then
    writes the eight bytes of [v] in the byte order of the host, whatever
    the length of [p]. *)
Definition putU64 (bo : ByteOrder) (p : slice) (v : Z) (mem : list Z) : M (list Z) :=
  if (0 <? len p)%nat then
    if (off p + 8 <=? length mem)%nat then mret (blit (off p) (host_bytes bo 8 v) mem)
    else undefined "unsafe store outside the backing array"
  else panic "runtime error: index out of range".

(** [fill]: [for i := range p { p[i] = byte(v >> (i * 8)) }]. *)
Fixpoint fill_range (p : slice) (v : Z) (idx : list nat) (mem : list Z) : M (list Z) :=
  match idx with
  | [] => mret mem
  | i :: idx' =>
      mem' ← store p i (byte (Z.shiftr v (Z.of_nat i * 8))) mem;
      fill_range p v idx' mem'
  end.

Definition fill (p : slice) (v : Z) (mem : list Z) : M (list Z) :=
  fill_range p v (seq 0 (len p)) mem.

(** [for len(p) >= 8 { putU64(p, u64()); p = p[8:] }]; [k] bounds the
    number of iterations, [Fill] passes [len(p)]. *)
Fixpoint Fill_chunks (bo : ByteOrder) (k : nat) (p : slice) (mem : list Z)
  : M (slice * list Z) :=
  if (8 <=? len p)%nat then
    match k with
    | O => out_of_fuel
    | S k' =>
        v ← u64;
        mem' ← putU64 bo p v mem;
        p' ← reslice p 8;
        Fill_chunks bo k' p' mem'
    end
  else mret (p, mem).

Definition Fill (bo : ByteOrder) (p : slice) (mem : list Z) : M (list Z) :=
  '(p, mem) ← Fill_chunks bo (len p) p mem;
  if (4 <? len p)%nat then v ← u64; fill p v mem
  else if (0 <? len p)%nat then v ← u32; fill p v mem
  else mret mem.

(** The reader: a struct without fields and its [Read] method. *)
Inductive reader := mkReader.
Definition ioReader : reader := mkReader.
Definition Reader : reader := ioReader.

(** [Read] returns the updated array together with Go's result pair
    [(n, err)]; [None] is the [nil] error. *)
Definition Read (_ : reader) (bo : ByteOrder) (p : slice) (mem : list Z)
  : M (list Z * (Z * option string)) :=
  mem' ← Fill bo p mem;
  mret (mem', (Z.of_nat (len p), None)).

(** ** Floating point

    Go's float32 and float64 are the IEEE 754 binary32 and binary64 formats
    with round-to-nearest-even; they are modelled by the reference
    specification [SpecFloat] at precisions 24 and 53. *)

Definition float32 (z : Z) : spec_float := binary_normalize 24 128 z 0 false.
Definition float64 (z : Z) : spec_float := binary_normalize 53 1024 z 0 false.

(** The float constant [m * 2^e]. *)
Definition const32 (m e : Z) : spec_float := binary_normalize 24 128 m e false.
Definition const64 (m e : Z) : spec_float := binary_normalize 53 1024 m e false.

Definition Float32 : M spec_float :=
  let mask := Z.shiftl 1 24 - 1 in
  let mult := const32 1 (-24) in
  w ← u32; mret (SFmul 24 128 (float32 (Z.land w mask)) mult).

Definition Float64 : M spec_float :=
  let mask := Z.shiftl 1 53 - 1 in
  let mult := const64 1 (-53) in
  w ← u64; mret (SFmul 53 1024 (float64 (Z.land w mask)) mult).

(** The rational a float stands for; [None] for infinities and NaN. *)
Definition SF2Q (f : spec_float) : option Q :=
  match f with
  | S754_zero _ => Some 0%Q
  | S754_finite s m e =>
      Some (inject_Z (cond_Zopp s (Z.pos m)) * Qpower 2 e)%Q
  | _ => None
  end.

(** ** Jitter *)

(** The integer types of the constraint [Real] (signed or unsigned); [int],
    [uint] and [uintptr] are taken at 64 bits. *)
Inductive IntType :=
| TInt | TInt8 | TInt16 | TInt32 | TInt64
| TUint | TUint8 | TUint16 | TUint32 | TUint64 | TUintptr.

Definition signed (T : IntType) : bool :=
  match T with
  | TInt | TInt8 | TInt16 | TInt32 | TInt64 => true
  | _ => false
  end.

Definition bits (T : IntType) : Z :=
  match T with
  | TInt8 | TUint8 => 8
  | TInt16 | TUint16 => 16
  | TInt32 | TUint32 => 32
  | _ => 64
  end.

Definition min_of (T : IntType) : Z :=
  if signed T then - 2 ^ (bits T - 1) else 0.
Definition max_of (T : IntType) : Z :=
  if signed T then 2 ^ (bits T - 1) - 1 else 2 ^ bits T - 1.
Definition in_range (T : IntType) (v : Z) : Prop := min_of T <= v <= max_of T.

(** Float to integer: the fraction is discarded; infinities and NaN have no
    integer part. *)
Definition trunc (f : spec_float) : option Z :=
  match f with
  | S754_zero _ => Some 0
  | S754_finite s m e => Some (cond_Zopp s (Z.shiftl (Z.pos m) e))
  | _ => None
  end.

(** The conversion [T(f)]: when [T] cannot represent the truncated value the
    result depends on the implementation, which is [None] here. *)
Definition to_int (T : IntType) (f : spec_float) : option Z :=
  match trunc f with
  | Some z => if (min_of T <=? z) && (z <=? max_of T) then Some z else None
  | None => None
  end.

(** [T(float64(v) * (1 + (factor * (2*r - 1))))], each operation rounded on
    its own. *)
Definition Jitter (T : IntType) (v : Z) (factor : spec_float) : M (option Z) :=
  r ← Float64;
  let one := const64 1 0 in
  let two := const64 2 0 in
  mret (to_int T
          (SFmul 53 1024 (float64 v)
             (SFadd 53 1024 one
                (SFmul 53 1024 factor
                   (SFsub 53 1024 (SFmul 53 1024 two r) one))))).

(** A constant stream, for examples. *)
Definition constant_source (w : Z) : Source := {| words := fun _ => w; cursor := 0 |}.

(** A stream read off a list, zero afterwards. *)
Definition list_source (l : list Z) : Source :=
  {| words := fun i => nth i l 0; cursor := 0 |}.


(** ** Specification vocabulary *)

(** The non-negative value each sampler derives from a raw word. *)
Definition raw31 (w : Z) : Z := int32 (Z.shiftr (uint32 w) 1).
Definition raw63 (w : Z) : Z := int64 (Z.shiftr (uint64 w) 1).
Definition raw32 (w : Z) : Z := uint32 w.
Definition raw64 (w : Z) : Z := uint64 w.

(** [n] is a power of two. *)
Definition is_pow2 (n : Z) : bool := (0 <? n) && (n =? 2 ^ Z.log2 n).

(** [l] lists, without repetition, the accepted raw values (those below
    [max]) that the reduction modulo [n] sends to [k]. *)
Definition accepted_preimages (n max k : Z) (l : list Z) : Prop :=
  NoDup l /\ forall v, v ∈ l <-> (0 <= v < max /\ v mod n = k).

(** What the specification says of a bounded sampler [sample] on a bound [n]
    that is not a power of two, where [raw] maps a word of the stream to the
    raw value the sampler tests, [MAXVAL] is the largest raw value and
    [wrap] is the conversion to the integer type the sampler computes in. *)
Definition rejection_sampler
    (sample : nat -> Z -> M Z) (raw wrap : Z -> Z) (MAXVAL n : Z) : Prop :=
  let max := MAXVAL - MAXVAL mod n in
  (* the raw values are exactly 0..MAXVAL *)
  (forall v, 0 <= v <= MAXVAL <-> exists w, raw w = v) /\
  (* the expression the code evaluates for max, in its integer type *)
  wrap (MAXVAL - Z.rem MAXVAL n) = max /\
  (* max is the largest multiple of n not exceeding MAXVAL+1 *)
  ((n | max) /\ max <= MAXVAL + 1 /\
   forall m, (n | m) -> m <= MAXVAL + 1 -> m <= max) /\
  (* raw values >= max are rejected and redrawn, the first one below max
     is reduced modulo n and returned *)
  (forall fuel k s,
      (k <= fuel)%nat ->
      (forall i, (i < k)%nat -> max <= raw (peek i s)) ->
      raw (peek k s) < max ->
      sample fuel n s = Ret (raw (peek k s) mod n) (skip (S k) s) /\
      0 <= raw (peek k s) mod n < n) /\
  (* every outcome has exactly max/n accepted preimages *)
  (forall k, 0 <= k < n ->
     exists l, accepted_preimages n max k l /\ Z.of_nat (length l) = max / n).

(** The bytes [Fill] is specified to leave in a buffer of [n] bytes:
    [n / 8] successive 64-bit draws, then the low-order bytes of one more
    64-bit draw for a remainder of 5 to 7 bytes, of one 32-bit draw for a
    remainder of 1 to 4 bytes, and nothing for a remainder of 0. *)
Fixpoint chunk_bytes (bo : ByteOrder) (q : nat) (s : Source) : list Z :=
  match q with
  | O => []
  | S q' => host_bytes bo 8 (uint64 (peek 0 s)) ++ chunk_bytes bo q' (advance s)
  end.

Definition tail_bytes (r : nat) (s : Source) : list Z :=
  if (4 <? r)%nat then le_bytes r (uint64 (peek 0 s))
  else if (0 <? r)%nat then le_bytes r (uint32 (peek 0 s))
  else [].

Definition stream_bytes (bo : ByteOrder) (n : nat) (s : Source) : list Z :=
  chunk_bytes bo (n / 8) s ++ tail_bytes (n mod 8) (skip (n / 8) s).

(** The number of words [Fill] is specified to draw for [n] bytes. *)
Definition draws (n : nat) : nat :=
  (n / 8 + if 0 <? n mod 8 then 1 else 0)%nat.

(** The bytes a slice shows of its backing array. *)
Definition window (p : slice) (mem : list Z) : list Z :=
  take (len p) (drop (off p) mem).

(** The bounded sampler [Shuffle] uses for a bound [n]: the 64-bit one
    from [maxInt32] on, the 32-bit one below. *)
Definition bounded_draw (fuel : nat) (n : Z) : M Z :=
  if maxInt32 <=? n then Int63n fuel n else Int31n fuel n.

(** Fisher-Yates as the specification words it: the index [i] goes down
    from [len - 1] to [1]; at each step [j] is drawn from [[0, i+1)] with a
    bounded sampler and the elements at [i] and [j] are swapped. *)
Fixpoint fisher_yates {E} (fuel : nat) (i : nat) (s : list E) : M (list E) :=
  match i with
  | O => mret s
  | S i' =>
      j ← bounded_draw fuel (Z.of_nat i + 1);
      s' ← swap s (Z.of_nat i) j;
      fisher_yates fuel i' s'
  end.

(** On the stream [src], every bounded draw for a bound up to [N] finds an
    accepted word before the fuel runs out, wherever it starts. *)
Definition fair (fuel : nat) (N : Z) (src : Source) : Prop :=
  forall c n, 0 < n <= N ->
    exists j src', bounded_draw fuel n (skip c src) = Ret j src'.

(** An outcome that is neither a panic nor undefined behaviour. *)
Definition benign {A} (o : outcome A) : Prop :=
  match o with
  | Ret _ _ | OutOfFuel => True
  | _ => False
  end.

(** The integer [n] at exponent [e] and the integer [n'] at exponent [e']
    stand for the same number. *)
Definition same_value (n e n' e' : Z) : Prop :=
  n * 2 ^ (e - Z.min e e') = n' * 2 ^ (e' - Z.min e e').

(** The float of precision [prec] for the integer [n] scaled by [2^e],
    when [n] has at most [prec] significant bits: the mantissa is shifted
    left until it has exactly [prec] bits. *)
Definition normal (prec n e : Z) : spec_float :=
  match n with
  | 0 => S754_zero false
  | Z.pos m =>
      let k := prec - Z.pos (digits2_pos m) in
      S754_finite false (Z.to_pos (Z.pos m * 2 ^ k)) (e - k)
  | Z.neg m =>
      let k := prec - Z.pos (digits2_pos m) in
      S754_finite true (Z.to_pos (Z.pos m * 2 ^ k)) (e - k)
  end.

(** [n * 2^e] with [|n| < 2^prec] and [e] far from the ends of the exponent
    range is a normal number of the format. *)
Definition fits (prec emax n e : Z) : Prop :=
  Z.abs n < 2 ^ prec /\ 2 - emax <= e <= emax - prec.

(** [v] has at most 53 significant bits, so that float64 holds it
    exactly. *)
Definition exact53 (v : Z) : bool :=
  Z.abs v mod 2 ^ Z.max 0 (Z.log2 (Z.abs v) - 52) =? 0.

(** ** [putU64] under the build tag [safe]

    The body of [putU64] in [fastrand_safe.go], statement by statement, with
    the identifiers as they are written there.  The build of the package
    under this tag resolves every identifier first. *)
Module SafeBuild.

(** A probe [_ = a[i]] and a byte store [a[i] = byte(v >> sh)]. *)
Inductive stmt :=
| Probe (a : string) (i : nat)
| Store (a : string) (i : nat) (sh : Z).

Definition putU64_body : list stmt :=
  [ Probe "p" 7;
    Store "b" 0 0;  Store "b" 1 8;  Store "b" 2 16; Store "b" 3 24;
    Store "b" 4 32; Store "b" 5 40; Store "b" 6 48; Store "b" 7 56 ].

(** The parameters of [putU64], and the names the package declares under
    the tag [safe] ([fastrand.go] and [fastrand_safe.go]). *)
Definition params : list string := ["p"; "v"].
Definition package_scope : list string :=
  [ "io"; "constraints"; "maphash";
    "maxUint32"; "maxUint64"; "maxInt32"; "maxInt64";
    "Float32"; "Float64"; "Int31"; "Int31n"; "Int63"; "Int63n";
    "Uint32"; "Uint64nUint32n"; "Uint64"; "Uint64n";
    "Real"; "Jitter"; "Shuffle"; "ioReader"; "Reader"; "reader";
    "Fill"; "fill"; "u32"; "u64"; "putU64" ].

Definition operand (st : stmt) : string :=
  match st with Probe a _ | Store a _ _ => a end.

Definition declared (a : string) : bool :=
  existsb (String.eqb a) (params ++ package_scope).

Definition first_undeclared (body : list stmt) : option string :=
  List.find (fun a => negb (declared a)) (map operand body).

(** One statement on the slice [p]. *)
Definition exec (p : slice) (v : Z) (st : stmt) (mem : list Z) : M (list Z) :=
  match st with
  | Probe _ i =>
      if (i <? len p)%nat then mret mem
      else panic "runtime error: index out of range"
  | Store _ i sh => store p i (byte (Z.shiftr v sh)) mem
  end.

Fixpoint run (body : list stmt) (p : slice) (v : Z) (mem : list Z) : M (list Z) :=
  match body with
  | [] => mret mem
  | st :: body' => mem' ← exec p v st mem; run body' p v mem'
  end.

(** The outcome of building a function body: the function, or the reason
    the compiler rejects it. *)
Inductive build (A : Type) : Type :=
| Built (f : A)
| Rejected (reason : string).
Arguments Built {A} f.
Arguments Rejected {A} reason.

Definition compile (body : list stmt)
  : build (slice -> Z -> list Z -> M (list Z)) :=
  match first_undeclared body with
  | Some a => Rejected ("undefined: " +:+ a)
  | None =>
      if forallb (fun st => String.eqb (operand st) "p") body
      then Built (run body)
      else Rejected "invalid operation: cannot index"
  end.

Definition putU64 : build (slice -> Z -> list Z -> M (list Z)) :=
  compile putU64_body.

(** The body with the identifier [old] replaced by [new]. *)
Definition rename (old new : string) (body : list stmt) : list stmt :=
  map (fun st =>
         match st with
         | Probe a i => Probe (if String.eqb a old then new else a) i
         | Store a i sh => Store (if String.eqb a old then new else a) i sh
         end) body.

End SafeBuild.

(** ** The four bounded samplers, side by side *)

(** A bounded sampler with the draw it is built on, the raw value that draw
    makes of a word, and the width in bits of its raw values. *)
Record sampler := mkSampler {
  run_sampler : nat -> Z -> M Z;
  draw : M Z;
  raw_value : Z -> Z;
  raw_bits : nat
}.

Definition max_raw (S : sampler) : Z := 2 ^ Z.of_nat (raw_bits S) - 1.

Definition samplers : list sampler :=
  [ mkSampler Int31n Int31 raw31 31;
    mkSampler Int63n Int63 raw63 63;
    mkSampler Uint64nUint32n u32 raw32 32;
    mkSampler Uint64n u64 raw64 64 ].

(** The threshold of the rejection loop for the bound [n]. *)
Definition threshold (S : sampler) (n : Z) : Z := max_raw S - max_raw S mod n.

(** Bytes, least significant first, read back as a number. *)
Definition le_decode (bs : list Z) : Z := foldr (fun b acc => b + 256 * acc) 0 bs.

Definition is_byte (b : Z) : Prop := 0 <= b < 256.


(** Bytes in the byte order of the host, read back as a number. *)
Definition host_decode (bo : ByteOrder) (bs : list Z) : Z :=
  match bo with
  | LittleEndian => le_decode bs
  | BigEndian => le_decode (rev bs)
  end.

(** The slices [p[:k]] and [p[k:]] of a slice with at least [k] bytes. *)
Definition slice_to (p : slice) (k : nat) : slice := {| off := off p; len := k |}.
Definition slice_from (p : slice) (k : nat) : slice :=
  {| off := (off p + k)%nat; len := (len p - k)%nat |}.

(** * Properties *)

Example Int31n_10_example :
  Int31n 5 10 (list_source [4294967295; 46]) = Ret 3 (skip 2 (list_source [4294967295; 46])).
Proof. reflexivity. Qed.


(** ** Sources *)

Lemma skip_0 s : skip 0 s = s.
Proof. destruct s as [w c]. unfold skip; simpl. f_equal. lia. Qed.

Lemma skip_1 s : skip 1 s = advance s.
Proof. unfold skip, advance. f_equal. lia. Qed.

Lemma skip_advance k s : skip k (advance s) = skip (S k) s.
Proof. unfold skip, advance; simpl. f_equal. lia. Qed.

Lemma skip_skip j k s : skip j (skip k s) = skip (k + j) s.
Proof. unfold skip; simpl. f_equal. lia. Qed.

Lemma peek_advance k s : peek k (advance s) = peek (S k) s.
Proof. unfold peek, advance; simpl. f_equal. lia. Qed.

Lemma peek_skip j k s : peek j (skip k s) = peek (k + j) s.
Proof. unfold peek, skip; simpl. f_equal. lia. Qed.

Lemma bind_Ret {A B} (m : M A) (f : A -> M B) s a s' :
  m s = Ret a s' -> (m ≫= f) s = f a s'.
Proof. intros H. unfold mbind, M_bind. now rewrite H. Qed.

(** ** Fixed-width arithmetic *)

Lemma maxUint32_eq : maxUint32 = 2 ^ 32 - 1.
Proof. reflexivity. Qed.
Lemma maxUint64_eq : maxUint64 = 2 ^ 64 - 1.
Proof. reflexivity. Qed.
Lemma maxInt32_eq : maxInt32 = 2 ^ 31 - 1.
Proof. reflexivity. Qed.
Lemma maxInt64_eq : maxInt64 = 2 ^ 63 - 1.
Proof. reflexivity. Qed.

Lemma uint32_id z : 0 <= z < 2 ^ 32 -> uint32 z = z.
Proof. intros H. unfold uint32. now apply Z.mod_small. Qed.

Lemma uint64_id z : 0 <= z < 2 ^ 64 -> uint64 z = z.
Proof. intros H. unfold uint64. now apply Z.mod_small. Qed.

Lemma int32_id z : - 2 ^ 31 <= z < 2 ^ 31 -> int32 z = z.
Proof. intros H. unfold int32. rewrite Z.mod_small; lia. Qed.

Lemma int64_id z : - 2 ^ 63 <= z < 2 ^ 63 -> int64 z = z.
Proof. intros H. unfold int64. rewrite Z.mod_small; lia. Qed.

Lemma uint32_range z : 0 <= uint32 z < 2 ^ 32.
Proof. unfold uint32. apply Z.mod_pos_bound. lia. Qed.

Lemma uint64_range z : 0 <= uint64 z < 2 ^ 64.
Proof. unfold uint64. apply Z.mod_pos_bound. lia. Qed.

Lemma raw32_range w : 0 <= raw32 w <= maxUint32.
Proof. unfold raw32. pose proof (uint32_range w). rewrite maxUint32_eq. lia. Qed.

Lemma raw64_range w : 0 <= raw64 w <= maxUint64.
Proof. unfold raw64. pose proof (uint64_range w). rewrite maxUint64_eq. lia. Qed.

Lemma raw31_eq w : raw31 w = uint32 w / 2.
Proof.
  unfold raw31. pose proof (uint32_range w).
  rewrite Z.shiftr_div_pow2 by lia. change (2 ^ 1) with 2.
  apply int32_id.
  assert (0 <= uint32 w / 2 < 2 ^ 31); [|lia].
  split; [apply Z.div_pos; lia|]. apply Z.div_lt_upper_bound; lia.
Qed.

Lemma raw63_eq w : raw63 w = uint64 w / 2.
Proof.
  unfold raw63. pose proof (uint64_range w).
  rewrite Z.shiftr_div_pow2 by lia. change (2 ^ 1) with 2.
  apply int64_id.
  assert (0 <= uint64 w / 2 < 2 ^ 63); [|lia].
  split; [apply Z.div_pos; lia|]. apply Z.div_lt_upper_bound; lia.
Qed.

Lemma raw31_range w : 0 <= raw31 w <= maxInt32.
Proof.
  rewrite raw31_eq, maxInt32_eq. pose proof (uint32_range w).
  split; [apply Z.div_pos; lia|].
  assert (uint32 w / 2 < 2 ^ 31); [apply Z.div_lt_upper_bound|]; lia.
Qed.

Lemma raw63_range w : 0 <= raw63 w <= maxInt64.
Proof.
  rewrite raw63_eq, maxInt64_eq. pose proof (uint64_range w).
  split; [apply Z.div_pos; lia|].
  assert (uint64 w / 2 < 2 ^ 63); [apply Z.div_lt_upper_bound|]; lia.
Qed.

(** ** Powers of two and the test [n & (n-1) == 0] *)

Lemma is_pow2_spec n : is_pow2 n = true <-> exists k, 0 <= k /\ n = 2 ^ k.
Proof.
  unfold is_pow2. rewrite andb_true_iff, Z.ltb_lt, Z.eqb_eq. split.
  - intros [Hn E]. exists (Z.log2 n). split; [apply Z.log2_nonneg | exact E].
  - intros (k & Hk & ->). split; [apply Z.pow_pos_nonneg; lia|].
    now rewrite Z.log2_pow2.
Qed.

Lemma land_pred_pow2 n : is_pow2 n = true -> Z.land n (n - 1) = 0.
Proof.
  intros (k & Hk & ->)%is_pow2_spec.
  replace (2 ^ k - 1) with (Z.ones k) by (rewrite Z.ones_equiv; lia).
  rewrite Z.land_ones by lia. apply Z.mod_same.
  apply Z.pow_nonzero; lia.
Qed.

Lemma land_pred_not_pow2 n : 0 < n -> is_pow2 n = false -> Z.land n (n - 1) <> 0.
Proof.
  intros Hn Hp E.
  unfold is_pow2 in Hp. apply andb_false_iff in Hp as [Hp|Hp];
    [apply Z.ltb_ge in Hp; lia | apply Z.eqb_neq in Hp].
  destruct (Z.log2_spec n Hn) as [Hlo Hhi].
  set (k := Z.log2 n) in *.
  assert (Hk : 0 <= k) by apply Z.log2_nonneg.
  assert (Hk' : Z.log2 (n - 1) = k) by (apply Z.log2_unique; lia).
  assert (Hb : Z.testbit (Z.land n (n - 1)) k = true).
  { rewrite Z.land_spec. unfold k at 1. rewrite Z.bit_log2 by lia.
    rewrite <- Hk'. rewrite Z.bit_log2; [reflexivity|].
    assert (0 < 2 ^ k) by (apply Z.pow_pos_nonneg; lia). lia. }
  rewrite E, Z.bits_0 in Hb. discriminate.
Qed.

Lemma divide_pow2 (w : nat) : forall n, 0 < n -> (n | 2 ^ Z.of_nat w) -> is_pow2 n = true.
Proof.
  induction w as [|w IH]; intros n Hn Hd.
  - change (2 ^ Z.of_nat 0) with 1 in Hd.
    apply Z.divide_1_r_nonneg in Hd; [subst; reflexivity | lia].
  - rewrite Nat2Z.inj_succ, Z.pow_succ_r in Hd by lia.
    destruct (Z.even n) eqn:Ev.
    + apply Z.even_spec in Ev as [m ->].
      apply Z.mul_divide_cancel_l in Hd; [|lia].
      apply IH in Hd; [|lia].
      apply is_pow2_spec in Hd as (k & Hk & ->).
      apply is_pow2_spec. exists (Z.succ k). split; [lia|].
      now rewrite Z.pow_succ_r.
    + apply IH; [assumption|].
      apply Z.gauss with (m := 2); [assumption|].
      assert (Ho : Z.odd n = true) by (rewrite <- Z.negb_even, Ev; reflexivity).
      apply Z.odd_spec in Ho as [m ->].
      rewrite Z.gcd_comm, Z.add_comm, Z.mul_comm, Z.gcd_add_mult_diag_r.
      reflexivity.
Qed.

(** ** The rejection loop *)

Section RejectLoop.
Variables (draw : M Z) (raw : Z -> Z).
Hypothesis draw_raw : forall s, draw s = Ret (raw (peek 0 s)) (advance s).
Hypothesis raw_nonneg : forall w, 0 <= raw w.

Lemma reject_loop_accept fuel max v s :
  v < max -> reject_loop fuel draw max v s = Ret v s.
Proof.
  intros Hv. destruct fuel; simpl;
    (destruct (max <=? v) eqn:E; [apply Z.leb_le in E; lia | reflexivity]).
Qed.

Lemma reject_loop_redraw max : forall k fuel v s,
  (k < fuel)%nat -> max <= v ->
  (forall i, (i < k)%nat -> max <= raw (peek i s)) ->
  raw (peek k s) < max ->
  reject_loop fuel draw max v s = Ret (raw (peek k s)) (skip (S k) s).
Proof.
  induction k as [|k IH]; intros fuel v s Hf Hv Hrej Hacc;
    (destruct fuel as [|fuel]; [lia|]); simpl;
    apply Z.leb_le in Hv; rewrite Hv;
    erewrite bind_Ret by apply draw_raw.
  - rewrite reject_loop_accept by assumption. now rewrite skip_1.
  - rewrite (IH fuel (raw (peek 0 s)) (advance s)).
    + now rewrite peek_advance, skip_advance.
    + lia.
    + apply Hrej. lia.
    + intros i Hi. rewrite peek_advance. apply Hrej. lia.
    + now rewrite peek_advance.
Qed.

(** Draw, redraw while rejected, reduce: the common tail of the four
    bounded samplers. *)
Lemma sample_tail fuel max n k s :
  0 < n -> (k <= fuel)%nat ->
  (forall i, (i < k)%nat -> max <= raw (peek i s)) ->
  raw (peek k s) < max ->
  (v ← draw; v ← reject_loop fuel draw max v; go_rem v n) s
  = Ret (raw (peek k s) mod n) (skip (S k) s).
Proof.
  intros Hn Hk Hrej Hacc.
  erewrite bind_Ret by apply draw_raw.
  assert (Hrem : forall v s', 0 <= v -> go_rem v n s' = Ret (v mod n) s').
  { intros v s' Hv. unfold go_rem.
    destruct (n =? 0) eqn:E; [apply Z.eqb_eq in E; lia|].
    unfold mret, M_ret. rewrite Z.rem_mod_nonneg by lia. reflexivity. }
  destruct k as [|k].
  - erewrite bind_Ret by (apply reject_loop_accept; exact Hacc).
    rewrite skip_1. now apply Hrem.
  - erewrite bind_Ret.
    2:{ apply (reject_loop_redraw max k).
        - lia.
        - apply (Hrej 0%nat). lia.
        - intros i Hi. rewrite peek_advance. apply Hrej. lia.
        - rewrite peek_advance. exact Hacc. }
    rewrite peek_advance, skip_advance. now apply Hrem.
Qed.
End RejectLoop.

Lemma Int31_raw s : Int31 s = Ret (raw31 (peek 0 s)) (advance s).
Proof. reflexivity. Qed.
Lemma Int63_raw s : Int63 s = Ret (raw63 (peek 0 s)) (advance s).
Proof. reflexivity. Qed.
Lemma u32_raw s : u32 s = Ret (raw32 (peek 0 s)) (advance s).
Proof. reflexivity. Qed.
Lemma u64_raw s : u64 s = Ret (raw64 (peek 0 s)) (advance s).
Proof. reflexivity. Qed.

Lemma go_rem_pos a n s : 0 <= a -> 0 < n -> go_rem a n s = Ret (a mod n) s.
Proof.
  intros Ha Hn. unfold go_rem.
  destruct (n =? 0) eqn:E; [apply Z.eqb_eq in E; lia|].
  unfold mret, M_ret. now rewrite Z.rem_mod_nonneg by lia.
Qed.

(** The four samplers on a bound that is not a power of two. *)

Lemma Int31n_reject fuel n k s :
  0 < n <= maxInt32 -> is_pow2 n = false -> (k <= fuel)%nat ->
  let max := maxInt32 - maxInt32 mod n in
  (forall i, (i < k)%nat -> max <= raw31 (peek i s)) ->
  raw31 (peek k s) < max ->
  Int31n fuel n s = Ret (raw31 (peek k s) mod n) (skip (S k) s).
Proof.
  intros Hn Hp Hk max Hrej Hacc. unfold Int31n.
  destruct (n <=? 0) eqn:E0; [apply Z.leb_le in E0; lia|].
  rewrite maxInt32_eq in Hn.
  rewrite (int32_id (n - 1)) by lia.
  destruct (Z.land n (n - 1) =? 0) eqn:E1;
    [apply Z.eqb_eq in E1; now apply land_pred_not_pow2 in E1; [|lia|]|].
  erewrite bind_Ret by (apply go_rem_pos; [rewrite maxInt32_eq|]; lia).
  pose proof (Z.mod_pos_bound maxInt32 n ltac:(lia)) as Hr.
  rewrite int32_id by (rewrite maxInt32_eq in *; lia).
  apply (sample_tail Int31 raw31 Int31_raw (fun w => proj1 (raw31_range w))); auto; lia.
Qed.

Lemma Int63n_reject fuel n k s :
  0 < n <= maxInt64 -> is_pow2 n = false -> (k <= fuel)%nat ->
  let max := maxInt64 - maxInt64 mod n in
  (forall i, (i < k)%nat -> max <= raw63 (peek i s)) ->
  raw63 (peek k s) < max ->
  Int63n fuel n s = Ret (raw63 (peek k s) mod n) (skip (S k) s).
Proof.
  intros Hn Hp Hk max Hrej Hacc. unfold Int63n.
  destruct (n <=? 0) eqn:E0; [apply Z.leb_le in E0; lia|].
  rewrite maxInt64_eq in Hn.
  rewrite (int64_id (n - 1)) by lia.
  destruct (Z.land n (n - 1) =? 0) eqn:E1;
    [apply Z.eqb_eq in E1; now apply land_pred_not_pow2 in E1; [|lia|]|].
  erewrite bind_Ret by (apply go_rem_pos; [rewrite maxInt64_eq|]; lia).
  pose proof (Z.mod_pos_bound maxInt64 n ltac:(lia)) as Hr.
  rewrite int64_id by (rewrite maxInt64_eq in *; lia).
  apply (sample_tail Int63 raw63 Int63_raw (fun w => proj1 (raw63_range w))); auto; lia.
Qed.

Lemma Uint64nUint32n_reject fuel n k s :
  0 < n <= maxUint32 -> is_pow2 n = false -> (k <= fuel)%nat ->
  let max := maxUint32 - maxUint32 mod n in
  (forall i, (i < k)%nat -> max <= raw32 (peek i s)) ->
  raw32 (peek k s) < max ->
  Uint64nUint32n fuel n s = Ret (raw32 (peek k s) mod n) (skip (S k) s).
Proof.
  intros Hn Hp Hk max Hrej Hacc. unfold Uint64nUint32n.
  rewrite maxUint32_eq in Hn.
  rewrite (uint32_id (n - 1)), (uint32_id n) by lia.
  destruct (Z.land n (n - 1) =? 0) eqn:E1;
    [apply Z.eqb_eq in E1; now apply land_pred_not_pow2 in E1; [|lia|]|].
  erewrite bind_Ret by (apply go_rem_pos; [rewrite maxUint32_eq|]; lia).
  pose proof (Z.mod_pos_bound maxUint32 n ltac:(lia)) as Hr.
  rewrite uint32_id by (rewrite maxUint32_eq in *; lia).
  apply (sample_tail u32 raw32 u32_raw (fun w => proj1 (raw32_range w))); auto; lia.
Qed.

Lemma Uint64n_reject fuel n k s :
  0 < n <= maxUint64 -> is_pow2 n = false -> (k <= fuel)%nat ->
  let max := maxUint64 - maxUint64 mod n in
  (forall i, (i < k)%nat -> max <= raw64 (peek i s)) ->
  raw64 (peek k s) < max ->
  Uint64n fuel n s = Ret (raw64 (peek k s) mod n) (skip (S k) s).
Proof.
  intros Hn Hp Hk max Hrej Hacc. unfold Uint64n.
  rewrite maxUint64_eq in Hn.
  rewrite (uint64_id (n - 1)), (uint64_id n) by lia.
  destruct (Z.land n (n - 1) =? 0) eqn:E1;
    [apply Z.eqb_eq in E1; now apply land_pred_not_pow2 in E1; [|lia|]|].
  erewrite bind_Ret by (apply go_rem_pos; [rewrite maxUint64_eq|]; lia).
  pose proof (Z.mod_pos_bound maxUint64 n ltac:(lia)) as Hr.
  rewrite uint64_id by (rewrite maxUint64_eq in *; lia).
  apply (sample_tail u64 raw64 u64_raw (fun w => proj1 (raw64_range w))); auto; lia.
Qed.

(** ** Unbiasedness of the rejection samplers *)

Lemma largest_multiple (w : nat) n :
  0 < n -> is_pow2 n = false ->
  let MAXVAL := 2 ^ Z.of_nat w - 1 in
  let max := MAXVAL - MAXVAL mod n in
  (n | max) /\ max <= MAXVAL + 1 /\
  forall m, (n | m) -> m <= MAXVAL + 1 -> m <= max.
Proof.
  intros Hn Hp MAXVAL max.
  assert (Hmax : max = n * (MAXVAL / n)).
  { unfold max. pose proof (Z.div_mod MAXVAL n ltac:(lia)). lia. }
  pose proof (Z.mod_pos_bound MAXVAL n Hn) as Hr.
  split; [exists (MAXVAL / n); lia|]. split; [lia|].
  intros m [q ->] Hm.
  assert (Hne : q * n <> 2 ^ Z.of_nat w).
  { intros E. assert (Hd : (n | 2 ^ Z.of_nat w)) by (exists q; lia).
    apply divide_pow2 in Hd; [congruence | assumption]. }
  assert (Hq : q <= MAXVAL / n) by (apply Z.div_le_lower_bound; lia).
  rewrite Hmax. nia.
Qed.

Lemma equal_mass n max k :
  0 < n -> (n | max) -> 0 <= max -> 0 <= k < n ->
  exists l, accepted_preimages n max k l /\ Z.of_nat (length l) = max / n.
Proof.
  intros Hn [c Hc] Hmax Hk.
  assert (Hdiv : max / n = c) by (subst max; apply Z.div_mul; lia).
  assert (Hc0 : 0 <= c) by nia.
  exists ((fun q => k + n * q) <$> seqZ 0 c). split; [split|].
  - apply NoDup_fmap_2; [|apply NoDup_seqZ]. intros x y Hxy. nia.
  - intros v. rewrite list_elem_of_fmap. setoid_rewrite elem_of_seqZ. split.
    + intros (q & -> & Hq). split; [nia|].
      replace (k + n * q) with (k + q * n) by lia.
      rewrite Z.mod_add by lia. now apply Z.mod_small.
    + intros [Hv Hm]. exists (v / n).
      pose proof (Z.div_mod v n ltac:(lia)).
      split; [lia|]. split; [apply Z.div_pos; lia|].
      apply Z.div_lt_upper_bound; lia.
  - rewrite length_fmap, length_seqZ, Hdiv. lia.
Qed.

Lemma raw31_onto v : 0 <= v <= maxInt32 <-> exists w, raw31 w = v.
Proof.
  split; [|intros [w <-]; apply raw31_range].
  rewrite maxInt32_eq. intros Hv. exists (2 * v).
  rewrite raw31_eq, uint32_id by lia.
  rewrite Z.mul_comm. apply Z.div_mul. lia.
Qed.

Lemma raw63_onto v : 0 <= v <= maxInt64 <-> exists w, raw63 w = v.
Proof.
  split; [|intros [w <-]; apply raw63_range].
  rewrite maxInt64_eq. intros Hv. exists (2 * v).
  rewrite raw63_eq, uint64_id by lia.
  rewrite Z.mul_comm. apply Z.div_mul. lia.
Qed.

Lemma raw32_onto v : 0 <= v <= maxUint32 <-> exists w, raw32 w = v.
Proof.
  split; [|intros [w <-]; apply raw32_range].
  rewrite maxUint32_eq. intros Hv. exists v. apply uint32_id. lia.
Qed.

Lemma raw64_onto v : 0 <= v <= maxUint64 <-> exists w, raw64 w = v.
Proof.
  split; [|intros [w <-]; apply raw64_range].
  rewrite maxUint64_eq. intros Hv. exists v. apply uint64_id. lia.
Qed.

Lemma rejection_sampler_intro sample raw wrap (w : nat) n :
  let MAXVAL := 2 ^ Z.of_nat w - 1 in
  0 < n <= MAXVAL -> is_pow2 n = false ->
  (forall v, 0 <= v <= MAXVAL <-> exists x, raw x = v) ->
  (forall z, 0 <= z <= MAXVAL -> wrap z = z) ->
  (forall fuel k s,
      (k <= fuel)%nat ->
      (forall i, (i < k)%nat -> MAXVAL - MAXVAL mod n <= raw (peek i s)) ->
      raw (peek k s) < MAXVAL - MAXVAL mod n ->
      sample fuel n s = Ret (raw (peek k s) mod n) (skip (S k) s)) ->
  rejection_sampler sample raw wrap MAXVAL n.
Proof.
  intros MAXVAL Hn Hp Hraw Hwrap Hrun.
  destruct (largest_multiple w n ltac:(lia) Hp) as (Hd & Hle & Hbig).
  fold MAXVAL in Hd, Hle, Hbig.
  pose proof (Z.mod_pos_bound MAXVAL n ltac:(lia)) as Hr.
  split; [exact Hraw|].
  split; [rewrite Z.rem_mod_nonneg by lia; apply Hwrap; lia|].
  split; [now repeat split|]. split.
  - intros fuel k s Hk Hrej Hacc. split; [now apply Hrun|].
    apply Z.mod_pos_bound; lia.
  - intros k Hk. apply equal_mass; auto; lia.
Qed.

(** C1. On a bound [n > 0] that is not a power of two, each of the four
    bounded samplers ([Int31n], [Int63n], [Uint64nUint32n], [Uint64n])
    works with [max = MAXVAL - MAXVAL mod n], the largest multiple of [n]
    not exceeding [MAXVAL + 1]; raw values [>= max] are rejected and
    redrawn, the first raw value [v < max] is accepted and [v mod n] is
    returned, so the result lies in [[0, n)]; and every outcome [k] in
    [[0, n)] has exactly [max / n] accepted preimages. *)
Theorem bounded_samplers_unbiased (n : Z) :
  0 < n -> is_pow2 n = false ->
  (n <= maxInt32 -> rejection_sampler Int31n raw31 int32 maxInt32 n) /\
  (n <= maxInt64 -> rejection_sampler Int63n raw63 int64 maxInt64 n) /\
  (n <= maxUint32 -> rejection_sampler Uint64nUint32n raw32 uint32 maxUint32 n) /\
  (n <= maxUint64 -> rejection_sampler Uint64n raw64 uint64 maxUint64 n).
Proof.
  intros Hn Hp. split; [|split; [|split]]; intros Hle.
  - apply (rejection_sampler_intro Int31n raw31 int32 31 n); auto using raw31_onto.
    + intros z Hz. apply int32_id. lia.
    + intros. now apply Int31n_reject.
  - apply (rejection_sampler_intro Int63n raw63 int64 63 n); auto using raw63_onto.
    + intros z Hz. apply int64_id. lia.
    + intros. now apply Int63n_reject.
  - apply (rejection_sampler_intro Uint64nUint32n raw32 uint32 32 n);
      auto using raw32_onto.
    + intros z Hz. apply uint32_id. lia.
    + intros. now apply Uint64nUint32n_reject.
  - apply (rejection_sampler_intro Uint64n raw64 uint64 64 n); auto using raw64_onto.
    + intros z Hz. apply uint64_id. lia.
    + intros. now apply Uint64n_reject.
Qed.

Lemma bounded_samplers_unbiased_witness :
  0 < 10 /\ is_pow2 10 = false /\
  rejection_sampler Int31n raw31 int32 maxInt32 10 /\
  rejection_sampler Int63n raw63 int64 maxInt64 10 /\
  rejection_sampler Uint64nUint32n raw32 uint32 maxUint32 10 /\
  rejection_sampler Uint64n raw64 uint64 maxUint64 10.
Proof.
  split; [lia|]. split; [reflexivity|].
  destruct (bounded_samplers_unbiased 10) as (H1 & H2 & H3 & H4);
    [lia | reflexivity |].
  split; [|split; [|split]];
    [apply H1 | apply H2 | apply H3 | apply H4]; vm_compute; discriminate.
Defined.

(** ** The mask path *)

Lemma Int31n_pow2 fuel n s :
  0 < n <= maxInt32 -> is_pow2 n = true ->
  Int31n fuel n s = Ret (Z.land (raw31 (peek 0 s)) (n - 1)) (advance s).
Proof.
  intros Hn Hp. unfold Int31n. rewrite maxInt32_eq in Hn.
  destruct (n <=? 0) eqn:E0; [apply Z.leb_le in E0; lia|].
  rewrite (int32_id (n - 1)) by lia.
  rewrite (land_pred_pow2 n Hp). reflexivity.
Qed.

Lemma Int63n_pow2 fuel n s :
  0 < n <= maxInt64 -> is_pow2 n = true ->
  Int63n fuel n s = Ret (Z.land (raw63 (peek 0 s)) (n - 1)) (advance s).
Proof.
  intros Hn Hp. unfold Int63n. rewrite maxInt64_eq in Hn.
  destruct (n <=? 0) eqn:E0; [apply Z.leb_le in E0; lia|].
  rewrite (int64_id (n - 1)) by lia.
  rewrite (land_pred_pow2 n Hp). reflexivity.
Qed.

Lemma Uint64nUint32n_pow2 fuel n s :
  0 < n <= maxUint32 -> is_pow2 n = true ->
  Uint64nUint32n fuel n s = Ret (Z.land (raw32 (peek 0 s)) (n - 1)) (advance s).
Proof.
  intros Hn Hp. unfold Uint64nUint32n. rewrite maxUint32_eq in Hn.
  rewrite (uint32_id (n - 1)) by lia.
  rewrite (land_pred_pow2 n Hp). reflexivity.
Qed.

Lemma Uint64n_pow2 fuel n s :
  0 < n <= maxUint64 -> is_pow2 n = true ->
  Uint64n fuel n s = Ret (Z.land (raw64 (peek 0 s)) (n - 1)) (advance s).
Proof.
  intros Hn Hp. unfold Uint64n. rewrite maxUint64_eq in Hn.
  rewrite (uint64_id (n - 1)) by lia.
  rewrite (land_pred_pow2 n Hp). reflexivity.
Qed.

(** C3. On a bound [n > 0] that is a power of two, bounded sampling makes
    exactly one draw and returns it masked with [n - 1]: [Int31n(n)] is
    [Int31() & (n-1)], [Int63n(n)] is [Int63() & (n-1)], the unsigned
    samplers return [u32() & (n-1)] and [u64() & (n-1)]; the rejection loop
    is not entered (the result does not depend on the fuel, and the cursor
    advances by one). *)
Theorem pow2_bound_masks (n : Z) :
  0 < n -> is_pow2 n = true ->
  forall fuel s,
    (n <= maxInt32 ->
       Int31n fuel n s = (v ← Int31; mret (Z.land v (n - 1))) s /\
       Int31n fuel n s = Ret (Z.land (raw31 (peek 0 s)) (n - 1)) (skip 1 s)) /\
    (n <= maxInt64 ->
       Int63n fuel n s = (v ← Int63; mret (Z.land v (n - 1))) s /\
       Int63n fuel n s = Ret (Z.land (raw63 (peek 0 s)) (n - 1)) (skip 1 s)) /\
    (n <= maxUint32 ->
       Uint64nUint32n fuel n s = (v ← u32; mret (Z.land v (n - 1))) s /\
       Uint64nUint32n fuel n s = Ret (Z.land (uint32 (peek 0 s)) (n - 1)) (skip 1 s)) /\
    (n <= maxUint64 ->
       Uint64n fuel n s = (v ← u64; mret (Z.land v (n - 1))) s /\
       Uint64n fuel n s = Ret (Z.land (uint64 (peek 0 s)) (n - 1)) (skip 1 s)).
Proof.
  intros Hn Hp fuel s. rewrite skip_1.
  split; [|split; [|split]]; intros Hle.
  - now rewrite Int31n_pow2.
  - now rewrite Int63n_pow2.
  - now rewrite Uint64nUint32n_pow2.
  - now rewrite Uint64n_pow2.
Qed.

Lemma pow2_bound_masks_witness :
  0 < 8 /\ is_pow2 8 = true /\
  Int31n 0 8 (constant_source 45) = Ret 6 (skip 1 (constant_source 45)) /\
  Uint64n 0 8 (constant_source 45) = Ret 5 (skip 1 (constant_source 45)).
Proof.
  split; [lia|]. split; [reflexivity|].
  destruct (pow2_bound_masks 8 ltac:(lia) eq_refl 0%nat (constant_source 45))
    as (H31 & _ & _ & H64).
  split.
  - destruct H31 as [_ H]; [vm_compute; discriminate | exact H].
  - destruct H64 as [_ H]; [vm_compute; discriminate | exact H].
Defined.

(** ** Invalid bounds *)

Lemma go_rem_no_panic a n s msg s' : n <> 0 -> go_rem a n s <> Panic msg s'.
Proof.
  intros Hn. unfold go_rem.
  destruct (n =? 0) eqn:E; [apply Z.eqb_eq in E; lia | discriminate].
Qed.

Lemma reject_loop_no_panic draw raw max :
  (forall s, draw s = Ret (raw (peek 0 s)) (advance s)) ->
  forall fuel v s,
    (exists v' s', reject_loop fuel draw max v s = Ret v' s') \/
    reject_loop fuel draw max v s = OutOfFuel.
Proof.
  intros Hd. induction fuel as [|fuel IH]; intros v s; simpl;
    destruct (max <=? v); eauto.
  erewrite bind_Ret by apply Hd. apply IH.
Qed.

Lemma sample_tail_no_panic draw raw fuel max n s msg s' :
  (forall s, draw s = Ret (raw (peek 0 s)) (advance s)) ->
  n <> 0 ->
  (v ← draw; v ← reject_loop fuel draw max v; go_rem v n) s <> Panic msg s'.
Proof.
  intros Hd Hn. erewrite bind_Ret by apply Hd.
  destruct (reject_loop_no_panic draw raw max Hd fuel (raw (peek 0 s)) (advance s))
    as [(v' & s'' & E)|E].
  - erewrite bind_Ret by apply E. now apply go_rem_no_panic.
  - unfold mbind, M_bind. rewrite E. discriminate.
Qed.

Lemma Int31n_no_panic fuel n s msg s' : 0 < n -> Int31n fuel n s <> Panic msg s'.
Proof.
  intros Hn. unfold Int31n.
  destruct (n <=? 0) eqn:E0; [apply Z.leb_le in E0; lia|].
  destruct (Z.land n (int32 (n - 1)) =? 0); [discriminate|].
  destruct (n =? 0) eqn:E; [apply Z.eqb_eq in E; lia|].
  erewrite bind_Ret by (unfold go_rem; rewrite E; reflexivity).
  apply (sample_tail_no_panic Int31 raw31); [apply Int31_raw | lia].
Qed.

Lemma Int63n_no_panic fuel n s msg s' : 0 < n -> Int63n fuel n s <> Panic msg s'.
Proof.
  intros Hn. unfold Int63n.
  destruct (n <=? 0) eqn:E0; [apply Z.leb_le in E0; lia|].
  destruct (Z.land n (int64 (n - 1)) =? 0); [discriminate|].
  destruct (n =? 0) eqn:E; [apply Z.eqb_eq in E; lia|].
  erewrite bind_Ret by (unfold go_rem; rewrite E; reflexivity).
  apply (sample_tail_no_panic Int63 raw63); [apply Int63_raw | lia].
Qed.

(** C2. On a bound [n <= 0] the signed samplers [Int31n] and [Int63n] panic
    at once: the source is untouched (no word has been drawn), the bound is
    not clamped and no value is returned.  On a bound [n > 0] they do not
    panic. *)
Theorem signed_bound_contract (n : Z) (fuel : nat) (s : Source) :
  (n <= 0 ->
     Int31n fuel n s = Panic "fastrand.Int31n: invalid argument" s /\
     Int63n fuel n s = Panic "fastrand.Int63n: invalid argument" s) /\
  (0 < n ->
     forall msg s', Int31n fuel n s <> Panic msg s' /\
                    Int63n fuel n s <> Panic msg s').
Proof.
  split.
  - intros Hn. unfold Int31n, Int63n.
    apply Z.leb_le in Hn. rewrite Hn. split; reflexivity.
  - intros Hn msg s'. split; [now apply Int31n_no_panic | now apply Int63n_no_panic].
Qed.

Lemma signed_bound_contract_witness :
  (Int31n 3 (-5) (constant_source 7)
     = Panic "fastrand.Int31n: invalid argument" (constant_source 7) /\
   Int63n 3 0 (constant_source 7)
     = Panic "fastrand.Int63n: invalid argument" (constant_source 7)) /\
  (forall msg s', Int31n 3 6 (constant_source 7) <> Panic msg s' /\
                  Int63n 3 6 (constant_source 7) <> Panic msg s').
Proof.
  split; [split|].
  - apply (signed_bound_contract (-5) 3 (constant_source 7)). lia.
  - apply (signed_bound_contract 0 3 (constant_source 7)). lia.
  - apply (signed_bound_contract 6 3 (constant_source 7)). lia.
Defined.

(** ** The unsigned samplers on a zero bound *)

Lemma land_all_ones (w : Z) (x : Z) :
  0 <= w -> 0 <= x < 2 ^ w -> Z.land x (2 ^ w - 1) = x.
Proof.
  intros Hw Hx.
  replace (2 ^ w - 1) with (Z.ones w) by (rewrite Z.ones_equiv; lia).
  rewrite Z.land_ones by lia. now apply Z.mod_small.
Qed.

(** C10. On the bound [0] the unsigned samplers [Uint64n] and
    [Uint64nUint32n] neither divide by zero nor panic: [0 & (0-1)] is [0],
    so the mask path is taken, the mask [0 - 1] wraps to all ones, and the
    raw word is returned as it is, a full-range unsigned value, after a
    single draw. *)
Theorem unsigned_zero_bound (fuel : nat) (s : Source) :
  (Z.land 0 (uint64 (0 - 1)) = 0 /\ uint64 (0 - 1) = maxUint64 /\
   Uint64n fuel 0 s = Ret (uint64 (peek 0 s)) (advance s) /\
   Uint64n fuel 0 s = Uint64 s /\
   forall v, 0 <= v <= maxUint64 ->
     Uint64n fuel 0 {| words := fun _ => v; cursor := cursor s |}
     = Ret v (advance {| words := fun _ => v; cursor := cursor s |})) /\
  (Z.land 0 (uint32 (0 - 1)) = 0 /\ uint32 (0 - 1) = maxUint32 /\
   Uint64nUint32n fuel 0 s = Ret (uint32 (peek 0 s)) (advance s) /\
   Uint64nUint32n fuel 0 s = Uint32 s /\
   forall v, 0 <= v <= maxUint32 ->
     Uint64nUint32n fuel 0 {| words := fun _ => v; cursor := cursor s |}
     = Ret v (advance {| words := fun _ => v; cursor := cursor s |})).
Proof.
  assert (H64 : forall s, Uint64n fuel 0 s = Ret (uint64 (peek 0 s)) (advance s)).
  { intros s0. unfold Uint64n. change (Z.land 0 (uint64 (0 - 1)) =? 0) with true.
    cbv beta iota. erewrite bind_Ret by apply u64_raw. unfold mret, M_ret. f_equal.
    change (uint64 (0 - 1)) with (2 ^ 64 - 1).
    apply land_all_ones; [lia | apply uint64_range]. }
  assert (H32 : forall s, Uint64nUint32n fuel 0 s = Ret (uint32 (peek 0 s)) (advance s)).
  { intros s0. unfold Uint64nUint32n. change (Z.land 0 (uint32 (0 - 1)) =? 0) with true.
    cbv beta iota. erewrite bind_Ret by apply u32_raw. unfold mret, M_ret. f_equal.
    change (uint32 (0 - 1)) with (2 ^ 32 - 1).
    apply land_all_ones; [lia | apply uint32_range]. }
  split; (split; [reflexivity|]; split; [reflexivity|]; split; [auto|]; split).
  - now rewrite H64.
  - intros v Hv. rewrite H64. unfold peek; simpl. rewrite uint64_id; [reflexivity|].
    rewrite maxUint64_eq in Hv. lia.
  - now rewrite H32.
  - intros v Hv. rewrite H32. unfold peek; simpl. rewrite uint32_id; [reflexivity|].
    rewrite maxUint32_eq in Hv. lia.
Qed.

Lemma unsigned_zero_bound_witness :
  Uint64n 0 0 (constant_source 18446744073709551615)
  = Ret 18446744073709551615 (advance (constant_source 18446744073709551615)) /\
  Uint64nUint32n 0 0 (constant_source 4294967295)
  = Ret 4294967295 (advance (constant_source 4294967295)).
Proof.
  split.
  - destruct (unsigned_zero_bound 0 (constant_source 18446744073709551615))
      as [(_ & _ & _ & _ & H) _].
    apply (H 18446744073709551615). vm_compute. split; discriminate.
  - destruct (unsigned_zero_bound 0 (constant_source 4294967295))
      as [_ (_ & _ & _ & _ & H)].
    apply (H 4294967295). vm_compute. split; discriminate.
Defined.

(** ** Filling a buffer *)

Lemma length_le_bytes n v : length (le_bytes n v) = n.
Proof. unfold le_bytes. now rewrite length_map, length_seq. Qed.

Lemma length_host_bytes bo n v : length (host_bytes bo n v) = n.
Proof. destruct bo; simpl; [|rewrite length_rev]; apply length_le_bytes. Qed.

Lemma length_chunk_bytes bo q : forall s, length (chunk_bytes bo q s) = (8 * q)%nat.
Proof.
  induction q as [|q IH]; intros s; simpl; [reflexivity|].
  rewrite length_app, length_host_bytes, IH. lia.
Qed.

Lemma length_tail_bytes r s : (r < 8)%nat -> length (tail_bytes r s) = r.
Proof.
  intros Hr. unfold tail_bytes.
  destruct (4 <? r)%nat eqn:E4; [apply length_le_bytes|].
  destruct (0 <? r)%nat eqn:E0; [apply length_le_bytes|].
  apply Nat.ltb_ge in E0. simpl. lia.
Qed.

Lemma length_stream_bytes bo n s : length (stream_bytes bo n s) = n.
Proof.
  unfold stream_bytes.
  rewrite length_app, length_chunk_bytes, length_tail_bytes
    by (apply Nat.mod_upper_bound; lia).
  pose proof (Nat.div_mod_eq n 8). lia.
Qed.

Lemma length_blit o bs mem :
  (o + length bs <= length mem)%nat -> length (blit o bs mem) = length mem.
Proof.
  intros H. unfold blit.
  rewrite !length_app, length_take, length_drop. lia.
Qed.

Lemma blit_nil o mem : blit o [] mem = mem.
Proof. unfold blit. simpl. rewrite Nat.add_0_r. apply take_drop. Qed.

Lemma blit_app o a b mem :
  (o + length a <= length mem)%nat ->
  blit (o + length a) b (blit o a mem) = blit o (a ++ b) mem.
Proof.
  intros H. unfold blit.
  assert (Ht : length (take o mem) = o) by (rewrite length_take; lia).
  rewrite (app_assoc (take o mem) a).
  rewrite take_app_length' by (rewrite length_app; lia).
  rewrite drop_app_ge by (rewrite length_app; lia).
  rewrite length_app, Ht.
  replace (o + length a + length b - (o + length a))%nat with (length b) by lia.
  rewrite drop_drop, length_app, <- !app_assoc.
  do 3 f_equal. f_equal. lia.
Qed.

Lemma insert_blit o b (mem : list Z) :
  (o < length mem)%nat -> <[o := b]> mem = blit o [b] mem.
Proof.
  intros H. unfold blit. rewrite insert_take_drop by assumption.
  simpl. do 3 f_equal. lia.
Qed.

Lemma window_blit p bs mem :
  length bs = len p -> within p mem -> window p (blit (off p) bs mem) = bs.
Proof.
  unfold window, within, blit. intros Hl Hw.
  rewrite drop_app_length' by (rewrite length_take; lia).
  rewrite take_app_length' by lia. reflexivity.
Qed.

Lemma fill_range_spec p v : forall k i mem s,
  (i + k <= len p)%nat -> within p mem ->
  fill_range p v (seq i k) mem s
  = Ret (blit (off p + i)
           (map (fun j : nat => byte (Z.shiftr v (Z.of_nat j * 8))) (seq i k)) mem) s.
Proof.
  unfold within.
  induction k as [|k IH]; intros i mem s Hk Hw; simpl.
  - now rewrite blit_nil.
  - unfold store. destruct (i <? len p)%nat eqn:E; [|apply Nat.ltb_ge in E; lia].
    erewrite bind_Ret by reflexivity.
    rewrite IH by (rewrite ?length_insert; lia).
    rewrite insert_blit by lia.
    replace (off p + S i)%nat with (off p + i + length [byte (Z.shiftr v (Z.of_nat i * 8))])%nat
      by (simpl; lia).
    rewrite blit_app by (simpl; lia). reflexivity.
Qed.

Lemma fill_spec p v mem s :
  within p mem -> fill p v mem s = Ret (blit (off p) (le_bytes (len p) v) mem) s.
Proof.
  intros Hw. unfold fill. rewrite fill_range_spec by (auto; lia).
  now rewrite Nat.add_0_r.
Qed.

Lemma putU64_spec bo p v mem s :
  (8 <= len p)%nat -> within p mem ->
  putU64 bo p v mem s = Ret (blit (off p) (host_bytes bo 8 v) mem) s.
Proof.
  unfold within, putU64. intros Hl Hw.
  destruct (0 <? len p)%nat eqn:E0; [|apply Nat.ltb_ge in E0; lia].
  destruct (off p + 8 <=? length mem)%nat eqn:E8; [reflexivity|].
  apply Nat.leb_gt in E8. lia.
Qed.

Lemma Fill_chunks_eq bo k p mem :
  Fill_chunks bo k p mem
  = if (8 <=? len p)%nat then
      match k with
      | O => out_of_fuel
      | S k' =>
          v ← u64; mem' ← putU64 bo p v mem; p' ← reslice p 8;
          Fill_chunks bo k' p' mem'
      end
    else mret (p, mem).
Proof. destruct k; reflexivity. Qed.

Lemma Fill_chunks_spec bo : forall q k p mem s,
  (q <= k)%nat -> (len p / 8 = q)%nat -> within p mem ->
  Fill_chunks bo k p mem s
  = Ret ({| off := off p + 8 * q; len := len p mod 8 |},
         blit (off p) (chunk_bytes bo q s) mem) (skip q s).
Proof.
  induction q as [|q IH]; intros k p mem s Hk Hq Hw.
  - assert (Hlt : (len p < 8)%nat).
    { apply Nat.div_small_iff in Hq; lia. }
    assert (E : (8 <=? len p)%nat = false) by (apply Nat.leb_gt; lia).
    rewrite Fill_chunks_eq, E. unfold mret, M_ret.
    rewrite blit_nil, skip_0, Nat.mod_small, Nat.add_0_r by lia.
    now destruct p.
  - pose proof (Nat.div_mod_eq (len p) 8) as Hdm.
    assert (Hge : (8 <= len p)%nat) by lia.
    destruct k as [|k]; [lia|].
    assert (E : (8 <=? len p)%nat = true) by (apply Nat.leb_le; lia).
    rewrite Fill_chunks_eq, E.
    erewrite bind_Ret by apply u64_raw.
    erewrite bind_Ret by (apply putU64_spec; assumption).
    unfold reslice. rewrite E. erewrite bind_Ret by reflexivity.
    assert (Hq' : ((len p - 8) / 8 = q)%nat).
    { replace (len p) with (1 * 8 + (len p - 8))%nat in Hq by lia.
      rewrite Nat.div_add_l in Hq by lia. lia. }
    assert (Hm' : ((len p - 8) mod 8 = len p mod 8)%nat).
    { replace (len p) with ((len p - 8) + 1 * 8)%nat at 2 by lia.
      now rewrite Nat.Div0.mod_add. }
    unfold within in *.
    rewrite IH; cbn [off len chunk_bytes]; rewrite ?length_blit;
      rewrite ?length_host_bytes; try lia.
    rewrite Hm', skip_advance. f_equal. f_equal; [f_equal; lia|].
    replace (off p + 8)%nat with (off p + length (host_bytes bo 8 (raw64 (peek 0 s))))%nat
      by (rewrite length_host_bytes; lia).
    rewrite blit_app by (rewrite length_host_bytes; lia). reflexivity.
Qed.

Lemma Fill_spec bo p mem s :
  within p mem ->
  Fill bo p mem s
  = Ret (blit (off p) (stream_bytes bo (len p) s) mem) (skip (draws (len p)) s).
Proof.
  intros Hw. unfold Fill.
  erewrite bind_Ret by (apply (Fill_chunks_spec bo (len p / 8)); auto;
                        apply Nat.Div0.div_le_upper_bound; lia).
  cbv beta iota. cbn [len off]. unfold stream_bytes, tail_bytes, draws.
  pose proof (Nat.mod_upper_bound (len p) 8 ltac:(lia)) as Hr.
  pose proof (Nat.div_mod_eq (len p) 8) as Hdm.
  set (q := (len p / 8)%nat) in *. set (r := (len p mod 8)%nat) in *.
  assert (Hwin : within {| off := off p + 8 * q; len := r |}
                   (blit (off p) (chunk_bytes bo q s) mem)).
  { unfold within in *. cbn [off len].
    rewrite length_blit by (rewrite length_chunk_bytes; lia). lia. }
  assert (Hblit : forall bs,
    blit (off p + 8 * q) bs (blit (off p) (chunk_bytes bo q s) mem)
    = blit (off p) (chunk_bytes bo q s ++ bs) mem).
  { intros bs. rewrite <- (length_chunk_bytes bo q s).
    apply blit_app. unfold within in Hw. rewrite length_chunk_bytes. lia. }
  destruct (4 <? r)%nat eqn:E4.
  - assert (E0 : (0 <? r)%nat = true) by (apply Nat.ltb_lt; apply Nat.ltb_lt in E4; lia).
    rewrite E0. erewrite bind_Ret by apply u64_raw.
    rewrite fill_spec by assumption. cbn [len off].
    rewrite Hblit. f_equal.
    unfold advance, skip; cbn [words cursor]. f_equal. lia.
  - destruct (0 <? r)%nat eqn:E0.
    + erewrite bind_Ret by apply u32_raw.
      rewrite fill_spec by assumption. cbn [len off].
      rewrite Hblit. f_equal.
      unfold advance, skip; cbn [words cursor]. f_equal. lia.
    + unfold mret, M_ret. rewrite app_nil_r, Nat.add_0_r. reflexivity.
Qed.

Lemma chunk_bytes_lookup bo : forall q s i rest,
  (i < q)%nat ->
  take 8 (drop (8 * i) (chunk_bytes bo q s ++ rest))
  = host_bytes bo 8 (uint64 (peek i s)).
Proof.
  induction q as [|q IH]; intros s i rest Hi; [lia|].
  cbn [chunk_bytes]. rewrite <- app_assoc.
  destruct i as [|i].
  - rewrite Nat.mul_0_r, drop_0. apply take_app_length'.
    now rewrite length_host_bytes.
  - rewrite drop_app_ge by (rewrite length_host_bytes; lia).
    rewrite length_host_bytes.
    replace (8 * S i - 8)%nat with (8 * i)%nat by lia.
    rewrite IH by lia. now rewrite peek_advance.
Qed.

Lemma blit_outside o bs mem :
  (o + length bs <= length mem)%nat ->
  take o (blit o bs mem) = take o mem /\
  drop (o + length bs) (blit o bs mem) = drop (o + length bs) mem.
Proof.
  intros H. unfold blit. split.
  - rewrite take_app_length' by (rewrite length_take; lia). reflexivity.
  - rewrite app_assoc. rewrite drop_app_length'; [reflexivity|].
    rewrite length_app, length_take. lia.
Qed.

(** C5. [Fill] on a buffer [p] of any length (0 included) returns, leaves
    the length of the memory unchanged and overwrites every byte of [p]:
    after the call the buffer holds [len(p)/8] successive 64-bit draws
    followed, for a remainder of 5 to 7 bytes, by the low-order bytes of one
    more 64-bit draw, for a remainder of 1 to 4 bytes by the low-order bytes
    of one 32-bit draw, and for a remainder of 0 by nothing (no further
    draw); what the buffer held before has no influence, and the bytes
    outside the buffer are left alone. *)
Theorem Fill_overwrites (bo : ByteOrder) (p : slice) (mem : list Z) (s : Source) :
  within p mem ->
  let n := len p in
  let q := (n / 8)%nat in
  let r := (n mod 8)%nat in
  exists mem',
    Fill bo p mem s = Ret mem' (skip (draws n) s) /\
    length mem' = length mem /\
    length (window p mem') = n /\
    take (off p) mem' = take (off p) mem /\
    drop (off p + n) mem' = drop (off p + n) mem /\
    (forall i, (i < q)%nat ->
       take 8 (drop (8 * i) (window p mem')) = host_bytes bo 8 (uint64 (peek i s))) /\
    (r = 0%nat -> drop (8 * q) (window p mem') = [] /\ draws n = q) /\
    ((1 <= r <= 4)%nat ->
       drop (8 * q) (window p mem') = le_bytes r (uint32 (peek q s)) /\
       draws n = S q) /\
    ((5 <= r <= 7)%nat ->
       drop (8 * q) (window p mem') = le_bytes r (uint64 (peek q s)) /\
       draws n = S q) /\
    (forall mem0, within p mem0 ->
       exists mem0', Fill bo p mem0 s = Ret mem0' (skip (draws n) s) /\
                     window p mem0' = window p mem').
Proof.
  intros Hw n q r.
  exists (blit (off p) (stream_bytes bo n s) mem).
  pose proof (length_stream_bytes bo n s) as Hlen.
  assert (Hwin : forall m, within p m ->
            window p (blit (off p) (stream_bytes bo n s) m) = stream_bytes bo n s).
  { intros m Hm. now apply window_blit. }
  destruct (blit_outside (off p) (stream_bytes bo n s) mem) as [Ht Hd];
    [unfold within in Hw; rewrite Hlen; fold n in Hw; lia|].
  rewrite Hlen in Hd.
  assert (Hdrop : drop (8 * q) (stream_bytes bo n s) = tail_bytes r (skip q s)).
  { unfold stream_bytes. fold q r.
    rewrite drop_app_length'; [reflexivity | now rewrite length_chunk_bytes]. }
  split; [now apply Fill_spec|].
  split; [apply length_blit; unfold within in Hw; rewrite Hlen; exact Hw|].
  rewrite (Hwin mem Hw).
  split; [exact Hlen|]. split; [exact Ht|]. split; [exact Hd|].
  split; [intros i Hi; unfold stream_bytes; now apply chunk_bytes_lookup|].
  rewrite Hdrop. unfold tail_bytes, draws. fold q r.
  rewrite peek_skip, Nat.add_0_r.
  split; [|split; [|split]].
  - intros ->. simpl. split; [reflexivity | lia].
  - intros Hr.
    destruct (4 <? r)%nat eqn:E4; [apply Nat.ltb_lt in E4; lia|].
    destruct (0 <? r)%nat eqn:E0; [|apply Nat.ltb_ge in E0; lia].
    split; [reflexivity | lia].
  - intros Hr.
    destruct (4 <? r)%nat eqn:E4; [|apply Nat.ltb_ge in E4; lia].
    destruct (0 <? r)%nat eqn:E0; [|apply Nat.ltb_ge in E0; lia].
    split; [reflexivity | lia].
  - intros mem0 Hw0. exists (blit (off p) (stream_bytes bo n s) mem0).
    split; [now apply Fill_spec | now apply Hwin].
Qed.

(** A 13-byte buffer at offset 1 of a 16-byte array. *)
Lemma Fill_overwrites_witness :
  let p := {| off := 1; len := 13 |} in
  let mem := repeat 170 16 in
  let s := list_source [72623859790382856; 4328719365] in
  within p mem /\
  exists mem',
    Fill LittleEndian p mem s = Ret mem' (skip 2 s) /\
    length mem' = 16%nat /\
    window p mem' = [8; 7; 6; 5; 4; 3; 2; 1; 5; 4; 3; 2; 1].
Proof.
  intros p mem s.
  assert (Hw : within p mem) by (unfold within; simpl; lia).
  split; [exact Hw|].
  destruct (Fill_overwrites LittleEndian p mem s Hw)
    as (mem' & HF & HL & _).
  exists mem'. split; [exact HF|]. split; [exact HL|].
  assert (E : Ret mem' (skip (draws (len p)) s)
              = Ret (blit 1 [8; 7; 6; 5; 4; 3; 2; 1; 5; 4; 3; 2; 1] mem) (skip 2 s))
    by (rewrite <- HF; vm_compute; reflexivity).
  injection E as ->. reflexivity.
Defined.

(** ** The reader *)

(** C8. [Read] on the reader returned by [Reader()] fills the whole of [p]
    (it leaves there what [Fill] leaves) and returns the pair
    [(len(p), nil)]: the count is the length of the buffer and there is
    never an error, end of stream included. *)
Theorem Read_reports_full (bo : ByteOrder) (p : slice) (mem : list Z) (s : Source) :
  within p mem ->
  exists mem',
    Read Reader bo p mem s
      = Ret (mem', (Z.of_nat (len p), None)) (skip (draws (len p)) s) /\
    Fill bo p mem s = Ret mem' (skip (draws (len p)) s) /\
    window p mem' = stream_bytes bo (len p) s /\
    length (window p mem') = len p /\
    length mem' = length mem.
Proof.
  intros Hw. exists (blit (off p) (stream_bytes bo (len p) s) mem).
  pose proof (length_stream_bytes bo (len p) s) as Hlen.
  assert (HF := Fill_spec bo p mem s Hw).
  split; [unfold Read; erewrite bind_Ret by exact HF; reflexivity|].
  split; [exact HF|].
  rewrite window_blit by assumption.
  split; [reflexivity|]. split; [exact Hlen|].
  apply length_blit. unfold within in Hw. now rewrite Hlen.
Qed.

Lemma Read_reports_full_witness :
  let p := {| off := 0; len := 3 |} in
  let s := constant_source 197121 in
  within p [0; 0; 0] /\
  exists mem',
    Read Reader BigEndian p [0; 0; 0] s = Ret (mem', (3, None)) (skip 1 s) /\
    window p mem' = [1; 2; 3].
Proof.
  intros p s.
  assert (Hw : within p [0; 0; 0]) by (unfold within; simpl; lia).
  split; [exact Hw|].
  destruct (Read_reports_full BigEndian p [0; 0; 0] s Hw)
    as (mem' & HR & _ & HW & _).
  exists mem'. split; [exact HR | rewrite HW; reflexivity].
Defined.

(** ** Every run of a bounded sampler *)

Lemma reject_loop_run draw raw max :
  (forall s, draw s = Ret (raw (peek 0 s)) (advance s)) ->
  (forall w, 0 <= raw w) ->
  forall fuel v s, 0 <= v ->
    reject_loop fuel draw max v s = OutOfFuel \/
    exists v' k, reject_loop fuel draw max v s = Ret v' (skip k s) /\ 0 <= v'.
Proof.
  intros Hd Hr. induction fuel as [|fuel IH]; intros v s Hv; simpl;
    (destruct (max <=? v);
      [|right; exists v, 0%nat; now rewrite skip_0]).
  - now left.
  - erewrite bind_Ret by apply Hd.
    destruct (IH (raw (peek 0 s)) (advance s) (Hr _)) as [E|(v' & k & E & Hv')].
    + now left.
    + right. exists v', (S k). now rewrite E, skip_advance.
Qed.

Lemma sample_tail_run draw raw fuel max n s :
  (forall s, draw s = Ret (raw (peek 0 s)) (advance s)) ->
  (forall w, 0 <= raw w) ->
  0 < n ->
  let m := (v ← draw; v ← reject_loop fuel draw max v; go_rem v n) in
  m s = OutOfFuel \/
  exists r k, m s = Ret r (skip k s) /\ 0 <= r < n.
Proof.
  intros Hd Hr Hn m. unfold m. erewrite bind_Ret by apply Hd.
  destruct (reject_loop_run draw raw max Hd Hr fuel (raw (peek 0 s)) (advance s) (Hr _))
    as [E|(v' & k & E & Hv')].
  - left. unfold mbind, M_bind. now rewrite E.
  - right. exists (v' mod n), (S k).
    erewrite bind_Ret by apply E.
    rewrite go_rem_pos, skip_advance by lia.
    split; [reflexivity | apply Z.mod_pos_bound; lia].
Qed.

Lemma mask_range v n :
  0 < n -> Z.land n (n - 1) = 0 -> 0 <= v -> 0 <= Z.land v (n - 1) < n.
Proof.
  intros Hn E Hv.
  destruct (is_pow2 n) eqn:Hp; [|now apply land_pred_not_pow2 in Hp].
  apply is_pow2_spec in Hp as (k & Hk & ->).
  replace (2 ^ k - 1) with (Z.ones k) by (rewrite Z.ones_equiv; lia).
  rewrite Z.land_ones by lia. apply Z.mod_pos_bound. lia.
Qed.

Lemma Int31n_run fuel n s :
  0 < n <= maxInt32 ->
  Int31n fuel n s = OutOfFuel \/
  exists r k, Int31n fuel n s = Ret r (skip k s) /\ 0 <= r < n.
Proof.
  intros Hn. unfold Int31n. rewrite maxInt32_eq in Hn.
  destruct (n <=? 0) eqn:E0; [apply Z.leb_le in E0; lia|].
  rewrite (int32_id (n - 1)) by lia.
  destruct (Z.land n (n - 1) =? 0) eqn:E1.
  - right. exists (Z.land (raw31 (peek 0 s)) (n - 1)), 1%nat.
    rewrite skip_1. split; [reflexivity|].
    apply Z.eqb_eq in E1. apply mask_range; [lia | assumption | apply raw31_range].
  - erewrite bind_Ret by (apply go_rem_pos; [rewrite maxInt32_eq|]; lia).
    apply (sample_tail_run Int31 raw31); [apply Int31_raw | apply raw31_range | lia].
Qed.

Lemma Int63n_run fuel n s :
  0 < n <= maxInt64 ->
  Int63n fuel n s = OutOfFuel \/
  exists r k, Int63n fuel n s = Ret r (skip k s) /\ 0 <= r < n.
Proof.
  intros Hn. unfold Int63n. rewrite maxInt64_eq in Hn.
  destruct (n <=? 0) eqn:E0; [apply Z.leb_le in E0; lia|].
  rewrite (int64_id (n - 1)) by lia.
  destruct (Z.land n (n - 1) =? 0) eqn:E1.
  - right. exists (Z.land (raw63 (peek 0 s)) (n - 1)), 1%nat.
    rewrite skip_1. split; [reflexivity|].
    apply Z.eqb_eq in E1. apply mask_range; [lia | assumption | apply raw63_range].
  - erewrite bind_Ret by (apply go_rem_pos; [rewrite maxInt64_eq|]; lia).
    apply (sample_tail_run Int63 raw63); [apply Int63_raw | apply raw63_range | lia].
Qed.

Lemma bounded_draw_run fuel n s :
  0 < n <= maxInt64 ->
  bounded_draw fuel n s = OutOfFuel \/
  exists j k, bounded_draw fuel n s = Ret j (skip k s) /\ 0 <= j < n.
Proof.
  intros Hn. unfold bounded_draw.
  destruct (maxInt32 <=? n) eqn:E.
  - now apply Int63n_run.
  - apply Z.leb_gt in E. apply Int31n_run. lia.
Qed.

(** ** Shuffle *)

Lemma bind_OutOfFuel {A B} (m : M A) (f : A -> M B) s :
  m s = OutOfFuel -> (m ≫= f) s = OutOfFuel.
Proof. intros H. unfold mbind, M_bind. now rewrite H. Qed.

Lemma bind_ext {A B} (m : M A) (f g : A -> M B) s :
  (forall a s', f a s' = g a s') -> (m ≫= f) s = (m ≫= g) s.
Proof. intros H. unfold mbind, M_bind. destruct (m s); auto. Qed.

Section ShuffleProofs.
Context {E : Type}.
Implicit Types s : list E.

Lemma swap_spec s i j src :
  0 <= i < Z.of_nat (length s) -> 0 <= j < Z.of_nat (length s) ->
  exists s', swap s i j src = Ret s' src /\ s' ≡ₚ s /\ length s' = length s.
Proof.
  intros Hi Hj. unfold swap, index.
  destruct (i <? 0) eqn:Ei; [apply Z.ltb_lt in Ei; lia|].
  destruct (j <? 0) eqn:Ej; [apply Z.ltb_lt in Ej; lia|].
  destruct (lookup_lt_is_Some_2 s (Z.to_nat i) ltac:(lia)) as [y Hy].
  destruct (lookup_lt_is_Some_2 s (Z.to_nat j) ltac:(lia)) as [x Hx].
  rewrite Hx, Hy. eexists. split; [reflexivity|]. split.
  - now apply Permutation_insert_swap.
  - now rewrite !length_insert.
Qed.

Lemma shuffle_narrow_eq fuel k i s :
  shuffle_narrow fuel k i s
  = if 0 <? i then
      match k with
      | O => out_of_fuel
      | S k' =>
          j ← Int31n fuel (int32 (i + 1)); s' ← swap s i j;
          shuffle_narrow fuel k' (i - 1) s'
      end
    else mret s.
Proof. destruct k; reflexivity. Qed.

Lemma shuffle_wide_eq fuel k i s :
  shuffle_wide fuel k i s
  = if maxInt32 - 1 <=? i then
      match k with
      | O => out_of_fuel
      | S k' =>
          j ← Int63n fuel (int64 (i + 1)); s' ← swap s i j;
          shuffle_wide fuel k' (i - 1) s'
      end
    else mret (i, s).
Proof. destruct k; reflexivity. Qed.

(** The narrow loop is the specified loop below [maxInt32 - 1]. *)
Lemma shuffle_narrow_fisher_yates fuel : forall (i k : nat) s src,
  (i <= k)%nat -> Z.of_nat i < maxInt32 - 1 ->
  shuffle_narrow fuel k (Z.of_nat i) s src = fisher_yates fuel i s src.
Proof.
  induction i as [|i IH]; intros k s src Hk Hi; rewrite shuffle_narrow_eq.
  - reflexivity.
  - destruct (0 <? Z.of_nat (S i)) eqn:E0; [|apply Z.ltb_ge in E0; lia].
    destruct k as [|k]; [lia|]. cbn [fisher_yates].
    unfold bounded_draw.
    destruct (maxInt32 <=? Z.of_nat (S i) + 1) eqn:E1;
      [apply Z.leb_le in E1; lia|].
    rewrite int32_id by (rewrite maxInt32_eq in Hi; lia).
    apply bind_ext. intros j src1. apply bind_ext. intros s1 src2.
    replace (Z.of_nat (S i) - 1) with (Z.of_nat i) by lia.
    apply IH; lia.
Qed.

(** The two loops of [Shuffle], one after the other, are the specified
    loop. *)
Lemma shuffle_loops_fisher_yates fuel (K : nat) : forall (i k : nat) s src,
  (i <= k)%nat -> (i <= K)%nat -> Z.of_nat i + 1 <= maxInt64 ->
  (shuffle_wide fuel k (Z.of_nat i) s
     ≫= (fun '(i', s') => shuffle_narrow fuel K i' s')) src
  = fisher_yates fuel i s src.
Proof.
  induction i as [|i IH]; intros k s src Hk HK Hi; rewrite shuffle_wide_eq.
  - change (maxInt32 - 1 <=? Z.of_nat 0) with false. cbv iota.
    erewrite bind_Ret by reflexivity.
    apply (shuffle_narrow_fisher_yates fuel 0); [lia | reflexivity].
  - destruct (maxInt32 - 1 <=? Z.of_nat (S i)) eqn:Ew.
    + apply Z.leb_le in Ew. destruct k as [|k]; [lia|]. cbn [fisher_yates].
      unfold bounded_draw.
      destruct (maxInt32 <=? Z.of_nat (S i) + 1) eqn:E1;
        [|apply Z.leb_gt in E1; lia].
      rewrite int64_id by (rewrite maxInt64_eq in Hi; lia).
      unfold mbind at 1. unfold M_bind at 1.
      unfold mbind at 1 3. unfold M_bind at 1 3.
      destruct (Int63n fuel (Z.of_nat (S i) + 1) src) as [j src1| | |]; try reflexivity.
      unfold mbind at 1 2. unfold M_bind at 1 2.
      destruct (swap s (Z.of_nat (S i)) j src1) as [s1 src2| | |]; try reflexivity.
      replace (Z.of_nat (S i) - 1) with (Z.of_nat i) by lia.
      apply IH; lia.
    + apply Z.leb_gt in Ew. erewrite bind_Ret by reflexivity.
      apply shuffle_narrow_fisher_yates; lia.
Qed.

Lemma Shuffle_refines fuel s src :
  Z.of_nat (length s) <= maxInt64 ->
  Shuffle fuel s src = fisher_yates fuel (length s - 1) s src.
Proof.
  intros Hl. unfold Shuffle.
  destruct s as [|x s].
  - reflexivity.
  - cbn [length]. replace (Z.of_nat (S (length s)) - 1) with (Z.of_nat (length s)) by lia.
    replace (S (length s) - 1)%nat with (length s) by lia.
    apply shuffle_loops_fisher_yates; cbn [length] in *; lia.
Qed.

Lemma fisher_yates_run fuel : forall (i : nat) s src,
  (i < length s \/ i = 0)%nat -> Z.of_nat i + 1 <= maxInt64 ->
  fisher_yates fuel i s src = OutOfFuel \/
  exists s' k, fisher_yates fuel i s src = Ret s' (skip k src) /\ s' ≡ₚ s.
Proof.
  induction i as [|i IH]; intros s src Hi Hmax; cbn [fisher_yates].
  - right. exists s, 0%nat. now rewrite skip_0.
  - destruct (bounded_draw_run fuel (Z.of_nat (S i) + 1) src ltac:(lia))
      as [Ed|(j & k & Ed & Hj)].
    + left. now apply bind_OutOfFuel.
    + erewrite bind_Ret by exact Ed.
      destruct (swap_spec s (Z.of_nat (S i)) j (skip k src))
        as (s1 & Es & Hp & Hl); [lia | lia |].
      erewrite bind_Ret by exact Es.
      destruct (IH s1 (skip k src)) as [Ef|(s' & k' & Ef & Hp')]; [lia | lia | |].
      * now left.
      * right. exists s', (k + k')%nat. rewrite Ef, skip_skip.
        split; [reflexivity | now rewrite Hp'].
Qed.

Lemma fisher_yates_total fuel N src :
  fair fuel N src -> N <= maxInt64 ->
  forall (i : nat) s c,
    i = 0%nat \/ ((i < length s)%nat /\ Z.of_nat i + 1 <= N) ->
    exists s' src', fisher_yates fuel i s (skip c src) = Ret s' src'.
Proof.
  intros Hfair HN.
  induction i as [|i IH]; intros s c Hi; cbn [fisher_yates].
  - now exists s, (skip c src).
  - destruct (Hfair c (Z.of_nat (S i) + 1) ltac:(lia)) as (j & src1 & Ed).
    destruct (bounded_draw_run fuel (Z.of_nat (S i) + 1) (skip c src) ltac:(lia))
      as [Ed'|(j' & k & Ed' & Hj)]; [congruence|].
    erewrite bind_Ret by exact Ed'.
    destruct (swap_spec s (Z.of_nat (S i)) j' (skip k (skip c src)))
      as (s1 & Es & Hp & Hl); [lia | lia |].
    erewrite bind_Ret by exact Es.
    rewrite skip_skip. apply IH; lia.
Qed.
End ShuffleProofs.

(** ** A stream on which every bounded draw succeeds at once *)

Lemma first_word_accepted MAXVAL n :
  0 < n <= MAXVAL -> 0 < MAXVAL - MAXVAL mod n.
Proof.
  intros Hn.
  pose proof (Z.div_mod MAXVAL n ltac:(lia)) as Hdm.
  assert (0 < MAXVAL / n) by (apply Z.div_str_pos; lia).
  nia.
Qed.

Lemma fair_zero_stream fuel N : N <= maxInt64 -> fair fuel N (constant_source 0).
Proof.
  intros HN c n Hn. unfold bounded_draw.
  destruct (maxInt32 <=? n) eqn:Ew; destruct (is_pow2 n) eqn:Hp.
  - rewrite Int63n_pow2 by (auto; lia). eauto.
  - rewrite (Int63n_reject fuel n 0); [eauto | lia | exact Hp | lia | intros; lia |].
    change (raw63 (peek 0 (skip c (constant_source 0)))) with 0.
    apply first_word_accepted. lia.
  - apply Z.leb_gt in Ew. rewrite Int31n_pow2 by (auto; lia). eauto.
  - apply Z.leb_gt in Ew.
    rewrite (Int31n_reject fuel n 0); [eauto | lia | exact Hp | lia | intros; lia |].
    change (raw31 (peek 0 (skip c (constant_source 0)))) with 0.
    apply first_word_accepted. lia.
Qed.

(** C6. [Shuffle] is the Fisher-Yates loop: the index [i] goes down from
    [len(s) - 1] to [1], at each step [j] is drawn from [[0, i+1)] by a
    bounded sampler and [s[i]] and [s[j]] are swapped.  Whenever it returns,
    the result is a permutation of the input; on an empty or one-element
    slice it returns the slice as it is, without drawing; it never panics;
    and it does return when every bounded draw finds an accepted word
    within the fuel. *)
Theorem Shuffle_permutes {E : Type} (fuel : nat) (s : list E) (src : Source) :
  Z.of_nat (length s) <= maxInt64 ->
  Shuffle fuel s src = fisher_yates fuel (length s - 1) s src /\
  (forall (i : nat) src0 j src1,
     (0 < i < length s)%nat ->
     bounded_draw fuel (Z.of_nat i + 1) src0 = Ret j src1 ->
     0 <= j < Z.of_nat i + 1) /\
  (forall s' src', Shuffle fuel s src = Ret s' src' -> s' ≡ₚ s) /\
  ((length s <= 1)%nat -> Shuffle fuel s src = Ret s src) /\
  benign (Shuffle fuel s src) /\
  (fair fuel (Z.of_nat (length s)) src ->
   exists s' src', Shuffle fuel s src = Ret s' src' /\ s' ≡ₚ s).
Proof.
  intros Hl.
  assert (Href := Shuffle_refines fuel s src Hl).
  pose proof maxInt64_eq as Hmax.
  assert (Hrun : Shuffle fuel s src = OutOfFuel \/
                 exists s' k, Shuffle fuel s src = Ret s' (skip k src) /\ s' ≡ₚ s).
  { rewrite Href. apply fisher_yates_run; lia. }
  assert (Hperm : forall s' src', Shuffle fuel s src = Ret s' src' -> s' ≡ₚ s).
  { intros s' src' HS. destruct Hrun as [Ho|(s2 & k & Hr & Hp)]; congruence. }
  split; [exact Href|]. split; [|split; [exact Hperm|split; [|split]]].
  - intros i src0 j src1 Hi Hd.
    destruct (bounded_draw_run fuel (Z.of_nat i + 1) src0 ltac:(lia))
      as [Ho|(j' & k & Hr & Hj)]; congruence.
  - intros H1. rewrite Href.
    replace (length s - 1)%nat with 0%nat by lia. reflexivity.
  - destruct Hrun as [->|(s2 & k & -> & _)]; exact I.
  - intros Hfair.
    destruct (fisher_yates_total fuel _ src Hfair Hl (length s - 1) s 0%nat)
      as (s' & src' & HS); [lia|].
    rewrite skip_0, <- Href in HS. exists s', src'. split; [exact HS | eauto].
Qed.

Lemma Shuffle_permutes_witness :
  let s := [10; 20; 30; 40] in
  let src := list_source [8; 4294967295; 2; 0] in
  Z.of_nat (length s) <= maxInt64 /\
  Shuffle 3 s src = Ret [30; 40; 20; 10] (skip 4 src) /\
  [30; 40; 20; 10] ≡ₚ s /\
  fair 0 (Z.of_nat (length s)) (constant_source 0) /\
  exists s' src', Shuffle 0 s (constant_source 0) = Ret s' src' /\ s' ≡ₚ s.
Proof.
  intros s src.
  assert (Hl : Z.of_nat (length s) <= maxInt64) by (vm_compute; discriminate).
  split; [exact Hl|].
  assert (HS : Shuffle 3 s src = Ret [30; 40; 20; 10] (skip 4 src))
    by (vm_compute; reflexivity).
  split; [exact HS|].
  destruct (Shuffle_permutes 3 s src Hl) as (_ & _ & Hp & _).
  split; [exact (Hp _ _ HS)|].
  assert (Hf : fair 0 (Z.of_nat (length s)) (constant_source 0))
    by (apply fair_zero_stream; exact Hl).
  split; [exact Hf|].
  destruct (Shuffle_permutes 0 s (constant_source 0) Hl) as (_ & _ & _ & _ & _ & Ht).
  exact (Ht Hf).
Defined.

(** ** Floating point: exact operations *)

Lemma digits2_log2 m : Z.pos (digits2_pos m) = Z.log2 (Z.pos m) + 1.
Proof.
  assert (Hs : forall p, digits2_pos p = Pos.size p)
    by (induction p; simpl; congruence).
  rewrite Hs. destruct m; simpl; lia.
Qed.

Lemma digits2_bounds m :
  2 ^ (Z.pos (digits2_pos m) - 1) <= Z.pos m < 2 ^ Z.pos (digits2_pos m).
Proof.
  rewrite digits2_log2.
  destruct (Z.log2_spec (Z.pos m) ltac:(lia)) as [Hlo Hhi].
  replace (Z.log2 (Z.pos m) + 1 - 1) with (Z.log2 (Z.pos m)) by lia.
  replace (Z.log2 (Z.pos m) + 1) with (Z.succ (Z.log2 (Z.pos m))) by lia.
  lia.
Qed.

Lemma digits2_unique m d :
  2 ^ (d - 1) <= Z.pos m < 2 ^ d -> Z.pos (digits2_pos m) = d.
Proof.
  intros H. rewrite digits2_log2.
  assert (Hd : 0 < d).
  { destruct (Z.lt_trichotomy d 0) as [Hn|[->|Hp]]; [|simpl in H; lia|exact Hp].
    rewrite (Z.pow_neg_r 2 d) in H by lia. lia. }
  rewrite (Z.log2_unique (Z.pos m) (d - 1)); [lia | lia |].
  replace (Z.succ (d - 1)) with d by lia. exact H.
Qed.

Lemma digits2_shift m m' k :
  0 <= k -> Z.pos m' = Z.pos m * 2 ^ k ->
  Z.pos (digits2_pos m') = Z.pos (digits2_pos m) + k.
Proof.
  intros Hk E. apply digits2_unique.
  pose proof (digits2_bounds m) as [Hlo Hhi].
  pose proof (Pos2Z.is_pos (digits2_pos m)).
  rewrite E.
  replace (Z.pos (digits2_pos m) + k - 1) with (Z.pos (digits2_pos m) - 1 + k) by lia.
  rewrite !Z.pow_add_r by lia.
  assert (0 < 2 ^ k) by (apply Z.pow_pos_nonneg; lia).
  nia.
Qed.

Lemma iter_pos_nat {A} (f : A -> A) p x :
  SpecFloat.iter_pos f p x = Nat.iter (Pos.to_nat p) f x.
Proof.
  revert x. induction p as [p IH|p IH|]; intros x; cbn [SpecFloat.iter_pos].
  - rewrite !IH, Pos2Nat.inj_xI, <- Nat.iter_add, <- Nat.iter_succ_r.
    f_equal. lia.
  - rewrite !IH, Pos2Nat.inj_xO, <- Nat.iter_add. f_equal. lia.
  - reflexivity.
Qed.

Lemma shr_1_iter_exact (k : nat) : forall m,
  Nat.iter k shr_1 {| shr_m := Z.pos (shift_nat k m); shr_r := false; shr_s := false |}
  = {| shr_m := Z.pos m; shr_r := false; shr_s := false |}.
Proof.
  induction k as [|k IH]; intros m; [reflexivity|].
  rewrite Nat.iter_succ_r.
  replace (shift_nat (S k) m) with (shift_nat k m)~0%positive by reflexivity.
  cbn [shr_1 orb]. apply IH.
Qed.

Lemma shr_exact (p : positive) (M m : positive) :
  Z.pos M = Z.pos m * 2 ^ Z.pos p ->
  SpecFloat.iter_pos shr_1 p {| shr_m := Z.pos M; shr_r := false; shr_s := false |}
  = {| shr_m := Z.pos m; shr_r := false; shr_s := false |}.
Proof.
  intros E. rewrite iter_pos_nat.
  assert (HM : M = shift_nat (Pos.to_nat p) m).
  { apply Pos2Z.inj. rewrite E, shift_nat_correct, Zpower_nat_Z.
    rewrite positive_nat_Z. lia. }
  rewrite HM. apply shr_1_iter_exact.
Qed.

Section FloatExact.
Variables prec emax : Z.
Hypothesis prec_pos : 0 < prec.
Hypothesis prec_lt_emax : prec < emax.

Lemma same_value_digits m e m' e' :
  same_value (Z.pos m) e (Z.pos m') e' ->
  Z.pos (digits2_pos m) + e = Z.pos (digits2_pos m') + e'.
Proof.
  unfold same_value. intros E.
  destruct (Z.le_ge_cases e e') as [H|H].
  - rewrite Z.min_l, Z.sub_diag, Z.mul_1_r in E by lia.
    rewrite (digits2_shift m' m (e' - e)); lia.
  - rewrite Z.min_r, Z.sub_diag, Z.mul_1_r in E by lia.
    rewrite (digits2_shift m m' (e - e')); lia.
Qed.

(** Rounding a mantissa whose dropped bits are all zero is exact. *)
Lemma binary_round_aux_exact sx M e m' e' :
  e <= e' -> Z.pos M = Z.pos m' * 2 ^ (e' - e) ->
  canonical_mantissa prec emax m' e' = true -> e' <= emax - prec ->
  binary_round_aux prec emax sx (Z.pos M) e loc_Exact = S754_finite sx m' e'.
Proof.
  intros He EM Hc Hb. unfold canonical_mantissa in Hc. apply Z.eqb_eq in Hc.
  assert (Hd : Z.pos (digits2_pos M) = Z.pos (digits2_pos m') + (e' - e))
    by (apply digits2_shift; [lia | exact EM]).
  assert (Hstep2 :
    shr_fexp prec emax (Z.pos m') e' loc_Exact
    = ({| shr_m := Z.pos m'; shr_r := false; shr_s := false |}, e')).
  { unfold shr_fexp. cbn [Zdigits2 shr_record_of_loc].
    rewrite Hc, Z.sub_diag. reflexivity. }
  assert (Hstep1 :
    shr_fexp prec emax (Z.pos M) e loc_Exact
    = ({| shr_m := Z.pos m'; shr_r := false; shr_s := false |}, e')).
  { unfold shr_fexp. cbn [Zdigits2 shr_record_of_loc].
    rewrite Hd. replace (Z.pos (digits2_pos m') + (e' - e) + e)
      with (Z.pos (digits2_pos m') + e') by lia.
    rewrite Hc. destruct (e' - e) as [|p|p] eqn:Ek; [| |lia].
    - unfold shr. rewrite Z.mul_1_r in EM. injection EM as ->.
      f_equal. lia.
    - unfold shr. rewrite (shr_exact p M m' EM). f_equal. lia. }
  unfold binary_round_aux. rewrite Hstep1.
  cbn [shr_m loc_of_shr_record round_nearest_even].
  rewrite Hstep2. cbn [shr_m].
  apply Z.leb_le in Hb. now rewrite Hb.
Qed.

Lemma binary_round_exact sx m e m' e' :
  same_value (Z.pos m) e (Z.pos m') e' ->
  canonical_mantissa prec emax m' e' = true -> e' <= emax - prec ->
  binary_round prec emax sx m e = S754_finite sx m' e'.
Proof.
  intros Hv Hc Hb. pose proof (same_value_digits _ _ _ _ Hv) as Hd.
  pose proof Hc as Hc'. unfold canonical_mantissa in Hc'. apply Z.eqb_eq in Hc'.
  unfold binary_round, shl_align. rewrite Hd, Hc'.
  unfold same_value in Hv.
  destruct (e' - e) as [|p|p] eqn:Ek.
  - apply binary_round_aux_exact; [lia | | exact Hc | exact Hb].
    rewrite Z.min_l, Z.sub_diag, Z.mul_1_r in Hv by lia.
    exact Hv.
  - apply binary_round_aux_exact; [lia | | exact Hc | exact Hb].
    rewrite Z.min_l, Z.sub_diag, Z.mul_1_r in Hv by lia.
    exact Hv.
  - rewrite Z.min_r, Z.sub_diag, Z.mul_1_r in Hv by lia.
    assert (Hm : Pos.iter xO m p = m').
    { apply Pos2Z.inj. rewrite <- Hv.
      change (Pos.iter xO m p) with (shift_pos p m).
      rewrite shift_pos_correct, Z.pow_pos_fold.
      replace (e - e') with (Z.pos p) by lia. lia. }
    rewrite Hm. apply binary_round_aux_exact; [lia | | exact Hc | exact Hb].
    rewrite Z.sub_diag. lia.
Qed.
End FloatExact.

Lemma same_value_intro n e n' e' c :
  c <= e -> c <= e' -> n * 2 ^ (e - c) = n' * 2 ^ (e' - c) ->
  same_value n e n' e'.
Proof.
  intros Hc Hc' E. unfold same_value.
  set (g := Z.min e e'). assert (Hg : c <= g) by (unfold g; lia).
  assert (g <= e /\ g <= e') as [Hge Hge'] by (unfold g; lia).
  replace (e - c) with ((e - g) + (g - c)) in E by lia.
  replace (e' - c) with ((e' - g) + (g - c)) in E by lia.
  rewrite !Z.pow_add_r, !Z.mul_assoc in E by lia.
  apply Z.mul_reg_r in E; [exact E|].
  apply Z.pow_nonzero; lia.
Qed.

Lemma same_value_elim n e n' e' c :
  same_value n e n' e' -> c <= e -> c <= e' ->
  n * 2 ^ (e - c) = n' * 2 ^ (e' - c).
Proof.
  unfold same_value. intros E Hc Hc'.
  set (g := Z.min e e') in *. assert (Hg : c <= g) by (unfold g; lia).
  assert (g <= e /\ g <= e') as [Hge Hge'] by (unfold g; lia).
  replace (e - c) with ((e - g) + (g - c)) by lia.
  replace (e' - c) with ((e' - g) + (g - c)) by lia.
  rewrite !Z.pow_add_r, !Z.mul_assoc by lia. now rewrite E.
Qed.

Section FloatNormal.
Variables prec emax : Z.
Hypothesis prec_pos : 0 < prec.
Hypothesis prec_lt_emax : prec < emax.

Lemma digits2_le m : Z.pos m < 2 ^ prec -> Z.pos (digits2_pos m) <= prec.
Proof.
  intros H. destruct (digits2_bounds m) as [Hlo _].
  destruct (Z.le_gt_cases (Z.pos (digits2_pos m)) prec) as [|Hgt]; [assumption|].
  assert (2 ^ prec <= 2 ^ (Z.pos (digits2_pos m) - 1))
    by (apply Z.pow_le_mono_r; lia).
  lia.
Qed.

Lemma normal_mantissa m e :
  Z.pos m < 2 ^ prec -> 2 - emax <= e <= emax - prec ->
  let k := prec - Z.pos (digits2_pos m) in
  let m' := Z.to_pos (Z.pos m * 2 ^ k) in
  0 <= k < prec /\ Z.pos m' = Z.pos m * 2 ^ k /\
  Z.pos (digits2_pos m') = prec /\
  canonical_mantissa prec emax m' (e - k) = true /\
  e - k <= emax - prec.
Proof.
  intros Hm He k m'.
  pose proof (digits2_le m Hm) as Hd.
  pose proof (Pos2Z.is_pos (digits2_pos m)) as Hd0.
  assert (Hk : 0 <= k < prec) by (unfold k; lia).
  assert (Hp : 0 < Z.pos m * 2 ^ k).
  { apply Z.mul_pos_pos; [lia | apply Z.pow_pos_nonneg; lia]. }
  assert (Hm' : Z.pos m' = Z.pos m * 2 ^ k) by (unfold m'; rewrite Z2Pos.id; lia).
  assert (Hdm : Z.pos (digits2_pos m') = prec).
  { rewrite (digits2_shift m m' k) by (lia || exact Hm'). unfold k. lia. }
  repeat split; try lia.
  unfold canonical_mantissa, fexp, emin. rewrite Hdm. apply Z.eqb_eq. lia.
Qed.

Lemma binary_normalize_exact N E n e :
  same_value N E n e -> fits prec emax n e ->
  binary_normalize prec emax N E false = normal prec n e.
Proof.
  intros Hv [Hn He].
  assert (Hpow : forall a, 0 < 2 ^ (a - Z.min E e) \/ a < Z.min E e).
  { intros a. destruct (Z.le_gt_cases (Z.min E e) a);
      [left; apply Z.pow_pos_nonneg; lia | right; lia]. }
  assert (HE : 0 < 2 ^ (E - Z.min E e))
    by (destruct (Hpow E); [assumption | lia]).
  assert (He' : 0 < 2 ^ (e - Z.min E e))
    by (destruct (Hpow e); [assumption | lia]).
  unfold same_value in Hv.
  destruct n as [|m|m]; cbn [normal].
  - assert (N = 0) by nia. subst N. reflexivity.
  - destruct N as [|M|M]; [nia | | nia]. cbn [binary_normalize].
    destruct (normal_mantissa m e ltac:(lia) He) as (Hk & Hm' & _ & Hc & Hb).
    apply binary_round_exact; [|exact Hc | exact Hb].
    apply (same_value_intro _ _ _ _ (Z.min E (e - (prec - Z.pos (digits2_pos m)))));
      [lia | lia |].
    rewrite Hm'.
    set (k := prec - Z.pos (digits2_pos m)) in *.
    set (g := Z.min E (e - k)).
    assert (Hg : g <= Z.min E e) by (unfold g; lia).
    pose proof (same_value_elim (Z.pos M) E (Z.pos m) e g Hv ltac:(lia) ltac:(lia)) as Hv'.
    rewrite Hv'. rewrite <- Z.mul_assoc, <- Z.pow_add_r by (unfold g; lia).
    f_equal. f_equal. lia.
  - destruct N as [|M|M]; [nia | nia |]. cbn [binary_normalize].
    destruct (normal_mantissa m e ltac:(lia) He) as (Hk & Hm' & _ & Hc & Hb).
    apply binary_round_exact; [|exact Hc | exact Hb].
    apply (same_value_intro _ _ _ _ (Z.min E (e - (prec - Z.pos (digits2_pos m)))));
      [lia | lia |].
    rewrite Hm'.
    set (k := prec - Z.pos (digits2_pos m)) in *.
    set (g := Z.min E (e - k)).
    assert (Hg : g <= Z.min E e) by (unfold g; lia).
    assert (Hvp : same_value (Z.pos M) E (Z.pos m) e).
    { unfold same_value. rewrite <- !Pos2Z.opp_pos in Hv. lia. }
    pose proof (same_value_elim (Z.pos M) E (Z.pos m) e g Hvp ltac:(lia) ltac:(lia)) as Hv'.
    rewrite Hv'. rewrite <- Z.mul_assoc, <- Z.pow_add_r by (unfold g; lia).
    f_equal. f_equal. lia.
Qed.
End FloatNormal.

Section FloatMul.
Variables prec emax : Z.
Hypothesis prec_pos : 0 < prec.
Hypothesis prec_lt_emax : prec < emax.

Lemma same_value_refl n e : same_value n e n e.
Proof. reflexivity. Qed.

Lemma normal_one e :
  normal prec 1 e = S754_finite false (Z.to_pos (2 ^ (prec - 1))) (e - (prec - 1)).
Proof. cbn [normal digits2_pos]. now rewrite Z.mul_1_l. Qed.

(** Multiplying by a power of two is exact. *)
Lemma SFmul_pow2_r n e e2 :
  fits prec emax n e -> fits prec emax n (e + e2) ->
  2 - emax <= e2 <= emax - prec ->
  SFmul prec emax (normal prec n e) (normal prec 1 e2) = normal prec n (e + e2).
Proof.
  intros [Hn He] [_ He12] He2. rewrite normal_one.
  assert (Hc : Z.pos (Z.to_pos (2 ^ (prec - 1))) = 2 ^ (prec - 1)).
  { rewrite Z2Pos.id; [reflexivity | apply Z.pow_pos_nonneg; lia]. }
  destruct n as [|m|m]; [reflexivity | |];
    cbn [normal SFmul xorb];
    (destruct (normal_mantissa prec emax prec_pos m (e + e2) ltac:(lia) He12)
      as (Hk & Hm' & _ & Hcan & Hb));
    (apply (binary_round_aux_exact prec emax);
      [lia
      | rewrite Pos2Z.inj_mul, Hc; f_equal; f_equal; lia
      | replace (e - (prec - Z.pos (digits2_pos m)) + e2)
          with (e + e2 - (prec - Z.pos (digits2_pos m))) by lia; exact Hcan
      | lia ]).
Qed.

Lemma SFmul_pow2_l n e e2 :
  fits prec emax n e -> fits prec emax n (e2 + e) ->
  2 - emax <= e2 <= emax - prec ->
  SFmul prec emax (normal prec 1 e2) (normal prec n e) = normal prec n (e2 + e).
Proof.
  intros [Hn He] [_ He12] He2. rewrite normal_one.
  assert (Hc : Z.pos (Z.to_pos (2 ^ (prec - 1))) = 2 ^ (prec - 1)).
  { rewrite Z2Pos.id; [reflexivity | apply Z.pow_pos_nonneg; lia]. }
  destruct n as [|m|m]; [reflexivity | |];
    cbn [normal SFmul xorb];
    (destruct (normal_mantissa prec emax prec_pos m (e2 + e) ltac:(lia) He12)
      as (Hk & Hm' & _ & Hcan & Hb));
    (apply (binary_round_aux_exact prec emax);
      [lia
      | rewrite Pos2Z.inj_mul, Hc, Z.mul_comm; f_equal; f_equal; lia
      | replace (e2 - (prec - 1) + (e - (prec - Z.pos (digits2_pos m))) + (prec - 1))
          with (e2 + e - (prec - Z.pos (digits2_pos m))) by lia; exact Hcan
      | lia ]).
Qed.

(** The rational value of a normal number. *)
Lemma SF2Q_normal n e :
  Z.abs n < 2 ^ prec ->
  exists q, SF2Q (normal prec n e) = Some q /\ (q == inject_Z n * Qpower 2 e)%Q.
Proof.
  intros Hn.
  assert (H2 : ~ (2 == 0)%Q) by discriminate.
  assert (Hshift : forall (m : positive) (s : bool),
    Z.pos m < 2 ^ prec ->
    let k := prec - Z.pos (digits2_pos m) in
    (inject_Z (cond_Zopp s (Z.pos (Z.to_pos (Z.pos m * 2 ^ k)))) * Qpower 2 (e - k)
     == inject_Z (cond_Zopp s (Z.pos m)) * Qpower 2 e)%Q).
  { intros m s Hm k.
    pose proof (digits2_le prec prec_pos m Hm) as Hd.
    assert (Hk : 0 <= k) by (unfold k; lia).
    rewrite Z2Pos.id by (apply Z.mul_pos_pos; [lia | apply Z.pow_pos_nonneg; lia]).
    replace (cond_Zopp s (Z.pos m * 2 ^ k)) with (cond_Zopp s (Z.pos m) * 2 ^ k)
      by (destruct s; simpl; lia).
    rewrite inject_Z_mult, Zpower_Qpower by lia.
    replace e with (k + (e - k)) at 2 by lia.
    rewrite Qpower_plus by exact H2. change (inject_Z 2) with 2%Q. ring. }
  destruct n as [|m|m]; cbn [normal SF2Q].
  - exists 0%Q. split; [reflexivity | ring].
  - eexists. split; [reflexivity|]. apply (Hshift m false). lia.
  - eexists. split; [reflexivity|]. apply (Hshift m true). lia.
Qed.
End FloatMul.

(** ** The float generators *)

Lemma land_mask w k : 0 <= k -> 0 <= Z.land w (Z.shiftl 1 k - 1) < 2 ^ k.
Proof.
  intros Hk. rewrite Z.shiftl_1_l.
  replace (2 ^ k - 1) with (Z.ones k) by (rewrite Z.ones_equiv; lia).
  rewrite Z.land_ones by lia. apply Z.mod_pos_bound. lia.
Qed.

Lemma float64_exact x : Z.abs x < 2 ^ 53 -> float64 x = normal 53 x 0.
Proof.
  intros Hx. unfold float64.
  apply binary_normalize_exact; [lia | lia | apply same_value_refl | split; lia].
Qed.

Lemma float32_exact x : Z.abs x < 2 ^ 24 -> float32 x = normal 24 x 0.
Proof.
  intros Hx. unfold float32.
  apply binary_normalize_exact; [lia | lia | apply same_value_refl | split; lia].
Qed.

Lemma Float64_normal s :
  Float64 s
  = Ret (normal 53 (Z.land (uint64 (peek 0 s)) (Z.shiftl 1 53 - 1)) (-53)) (advance s).
Proof.
  unfold Float64. erewrite bind_Ret by apply u64_raw. unfold mret, M_ret. f_equal.
  pose proof (land_mask (raw64 (peek 0 s)) 53 ltac:(lia)) as Hx. unfold raw64 in *.
  rewrite float64_exact by lia.
  change (const64 1 (-53)) with (normal 53 1 (-53)).
  apply (SFmul_pow2_r 53 1024); [lia | split; lia | split; lia | lia].
Qed.

Lemma Float32_normal s :
  Float32 s
  = Ret (normal 24 (Z.land (uint32 (peek 0 s)) (Z.shiftl 1 24 - 1)) (-24)) (advance s).
Proof.
  unfold Float32. erewrite bind_Ret by apply u32_raw. unfold mret, M_ret. f_equal.
  pose proof (land_mask (raw32 (peek 0 s)) 24 ltac:(lia)) as Hx. unfold raw32 in *.
  rewrite float32_exact by lia.
  change (const32 1 (-24)) with (normal 24 1 (-24)).
  apply (SFmul_pow2_r 24 128); [lia | split; lia | split; lia | lia].
Qed.

(** A normal number below one compares below the float [1.0]. *)
Lemma normal_below_one prec x :
  1 < prec -> 0 <= x < 2 ^ prec ->
  SFcompare (normal prec x (- prec)) (normal prec 1 0) = Some Lt.
Proof.
  intros Hp Hx. destruct x as [|m|m]; [reflexivity | | lia].
  cbn [normal digits2_pos SFcompare].
  pose proof (digits2_le prec ltac:(lia) m ltac:(lia)).
  pose proof (Pos2Z.is_pos (digits2_pos m)).
  replace (- prec - (prec - Z.pos (digits2_pos m)) ?= 0 - (prec - 1)) with Lt;
    [reflexivity|].
  symmetry. apply Z.compare_lt_iff. lia.
Qed.

Lemma unit_interval_value x p (q : Q) :
  0 <= x < 2 ^ Z.pos p ->
  (q == inject_Z x * Qpower 2 (Z.neg p))%Q -> (0 <= q)%Q /\ (q < 1)%Q.
Proof.
  intros Hx Hq.
  assert (Hpow : (Qpower 2 (Z.neg p) == 1 # Z.to_pos (2 ^ Z.pos p))%Q).
  { change (Z.neg p) with (- Z.pos p). rewrite Qpower_opp.
    rewrite <- (Zpower_Qpower 2 (Z.pos p)) by lia.
    assert (0 < 2 ^ Z.pos p) by (apply Z.pow_pos_nonneg; lia).
    unfold Qinv, inject_Z. cbn [Qnum Qden].
    destruct (2 ^ Z.pos p) as [|t|t] eqn:Et; try lia. reflexivity. }
  rewrite Hq, Hpow.
  assert (0 < 2 ^ Z.pos p) by (apply Z.pow_pos_nonneg; lia).
  unfold Qle, Qlt, Qmult, inject_Z; cbn [Qnum Qden].
  rewrite Pos.mul_1_l, !Z.mul_1_r, Z.mul_1_l, Z2Pos.id by lia.
  lia.
Qed.

(** C4. For the raw word [w] it draws, [Float64()] is exactly
    [(w & (2^53 - 1)) * 2^-53] and [Float32()] is exactly
    [(w & (2^24 - 1)) * 2^-24]; both results lie in [[0, 1)]: they are
    finite, non-negative, compare below the float [1.0] and are not equal
    to it. *)
Theorem float_generators_exact (s : Source) :
  (exists f q,
     Float64 s = Ret f (advance s) /\ SF2Q f = Some q /\
     (q == inject_Z (Z.land (uint64 (peek 0 s)) (2 ^ 53 - 1)) * Qpower 2 (-53))%Q /\
     (0 <= q)%Q /\ (q < 1)%Q /\
     SFleb (const64 0 0) f = true /\
     SFltb f (const64 1 0) = true /\ SFeqb f (const64 1 0) = false) /\
  (exists f q,
     Float32 s = Ret f (advance s) /\ SF2Q f = Some q /\
     (q == inject_Z (Z.land (uint32 (peek 0 s)) (2 ^ 24 - 1)) * Qpower 2 (-24))%Q /\
     (0 <= q)%Q /\ (q < 1)%Q /\
     SFleb (const32 0 0) f = true /\
     SFltb f (const32 1 0) = true /\ SFeqb f (const32 1 0) = false).
Proof.
  split.
  - pose proof (land_mask (uint64 (peek 0 s)) 53 ltac:(lia)) as Hx.
    change (Z.shiftl 1 53 - 1) with (2 ^ 53 - 1) in Hx.
    set (x := Z.land (uint64 (peek 0 s)) (2 ^ 53 - 1)) in *.
    destruct (SF2Q_normal 53 ltac:(lia) x (-53) ltac:(lia)) as (q & Hq & Hv).
    exists (normal 53 x (-53)), q.
    split; [apply Float64_normal|]. split; [exact Hq|]. split; [exact Hv|].
    destruct (unit_interval_value x 53 q Hx Hv) as [H0 H1].
    split; [exact H0|]. split; [exact H1|].
    pose proof (normal_below_one 53 x ltac:(lia) Hx) as Hc.
    change (normal 53 1 0) with (const64 1 0) in Hc.
    change (Z.opp (Z.pos 53)) with (Z.neg 53) in Hc.
    unfold SFltb, SFeqb. rewrite Hc.
    split; [|split; reflexivity].
    destruct x as [|m|m]; [reflexivity | reflexivity | lia].
  - pose proof (land_mask (uint32 (peek 0 s)) 24 ltac:(lia)) as Hx.
    change (Z.shiftl 1 24 - 1) with (2 ^ 24 - 1) in Hx.
    set (x := Z.land (uint32 (peek 0 s)) (2 ^ 24 - 1)) in *.
    destruct (SF2Q_normal 24 ltac:(lia) x (-24) ltac:(lia)) as (q & Hq & Hv).
    exists (normal 24 x (-24)), q.
    split; [apply Float32_normal|]. split; [exact Hq|]. split; [exact Hv|].
    destruct (unit_interval_value x 24 q Hx Hv) as [H0 H1].
    split; [exact H0|]. split; [exact H1|].
    pose proof (normal_below_one 24 x ltac:(lia) Hx) as Hc.
    change (normal 24 1 0) with (const32 1 0) in Hc.
    change (Z.opp (Z.pos 24)) with (Z.neg 24) in Hc.
    unfold SFltb, SFeqb. rewrite Hc.
    split; [|split; reflexivity].
    destruct x as [|m|m]; [reflexivity | reflexivity | lia].
Qed.

(** ** Jitter *)

Lemma exact53_decompose v :
  exact53 v = true ->
  exists n e, 0 <= e <= Z.max 0 (Z.log2 (Z.abs v) - 52) /\
              v = n * 2 ^ e /\ Z.abs n < 2 ^ 53.
Proof.
  unfold exact53. intros H. apply Z.eqb_eq in H.
  set (a := Z.abs v) in *. set (k := Z.max 0 (Z.log2 a - 52)) in *.
  assert (Hk : 0 <= k) by (unfold k; lia).
  assert (Hp : 0 < 2 ^ k) by (apply Z.pow_pos_nonneg; lia).
  assert (Hd : (2 ^ k | v)).
  { apply Z.divide_abs_r. fold a. apply Z.mod_divide; [lia | exact H]. }
  destruct Hd as [q Hq]. exists q, k. split; [lia|]. split; [exact Hq|].
  assert (Ha : a = Z.abs q * 2 ^ k).
  { unfold a. rewrite Hq, Z.abs_mul, (Z.abs_eq (2 ^ k)) by lia. reflexivity. }
  destruct (Z.eq_dec a 0) as [Ha0|Ha0]; [nia|].
  assert (Hapos : 0 < a) by (unfold a in *; lia).
  destruct (Z.log2_spec a Hapos) as [_ Hhi].
  assert (Hle : Z.succ (Z.log2 a) <= k + 53) by (unfold k; lia).
  assert (Hlt : a < 2 ^ (k + 53)).
  { eapply Z.lt_le_trans; [exact Hhi|]. apply Z.pow_le_mono_r; lia. }
  rewrite Z.pow_add_r in Hlt by lia. nia.
Qed.

Lemma exact53_small v : Z.abs v <= 2 ^ 53 -> exact53 v = true.
Proof.
  intros Hv. unfold exact53. apply Z.eqb_eq.
  destruct (Z.eq_dec (Z.abs v) (2 ^ 53)) as [->|Hne]; [reflexivity|].
  assert (Hk : Z.max 0 (Z.log2 (Z.abs v) - 52) = 0).
  { destruct (Z.eq_dec (Z.abs v) 0) as [->|H0]; [reflexivity|].
    assert (Z.log2 (Z.abs v) < 53) by (apply Z.log2_lt_pow2; lia). lia. }
  rewrite Hk. apply Z.mod_1_r.
Qed.

Lemma shl_align_value m e ez :
  ez <= e -> Z.pos (fst (shl_align m e ez)) = Z.pos m * 2 ^ (e - ez).
Proof.
  intros H. unfold shl_align.
  destruct (ez - e) as [|p|p] eqn:Ek; cbn [fst]; [| lia |].
  - replace (e - ez) with 0 by lia. lia.
  - change (Pos.iter xO m p) with (shift_pos p m).
    rewrite shift_pos_correct, Z.pow_pos_fold.
    replace (e - ez) with (Z.pos p) by lia. lia.
Qed.

(** [2*r - 1] for [r] drawn by [Float64]: exact, hence finite. *)
Lemma twice_minus_one_exact x :
  0 <= x < 2 ^ 53 ->
  SFsub 53 1024 (normal 53 x (-52)) (normal 53 1 0) = normal 53 (x - 2 ^ 52) (-52).
Proof.
  intros Hx. destruct x as [|m|m]; [reflexivity | | lia].
  destruct (normal_mantissa 53 1024 ltac:(lia) m (-52) ltac:(lia) ltac:(lia))
    as (Hk & Hm' & _).
  rewrite (normal_one 53). cbn [normal SFsub cond_Zopp].
  set (k := 53 - Z.pos (digits2_pos m)) in *.
  set (m' := Z.to_pos (Z.pos m * 2 ^ k)) in *.
  replace (Z.min (-52 - k) (0 - (53 - 1))) with (-52 - k) by lia.
  rewrite !shl_align_value by lia.
  apply binary_normalize_exact; [lia | lia | | split; lia].
  apply (same_value_intro _ _ _ _ (-52 - k)); [lia | lia |].
  rewrite Z.sub_diag, Z.pow_0_r, Z.mul_1_r, Hm'.
  replace (Z.pos (Z.to_pos (2 ^ (53 - 1)))) with (2 ^ 52) by reflexivity.
  replace (0 - (53 - 1) - (-52 - k)) with k by lia.
  replace (-52 - (-52 - k)) with k by lia.
  replace (-52 - k - (-52 - k)) with 0 by lia. lia.
Qed.

Lemma normal_finite_or_zero prec n e :
  match normal prec n e with
  | S754_zero _ | S754_finite _ _ _ => True
  | _ => False
  end.
Proof. destruct n; exact I. Qed.

(** [1 + 0 * y] is [1] for every finite [y], whatever the sign of the
    zero. *)
Lemma one_plus_zero_times sz y :
  match y with S754_zero _ | S754_finite _ _ _ => True | _ => False end ->
  SFadd 53 1024 (const64 1 0) (SFmul 53 1024 (S754_zero sz) y) = const64 1 0.
Proof. destruct y; intros H; try contradiction; reflexivity. Qed.

Lemma trunc_normal prec n e :
  0 < prec -> Z.abs n < 2 ^ prec -> 0 <= e ->
  trunc (normal prec n e) = Some (n * 2 ^ e).
Proof.
  intros Hp Hn He.
  assert (Hshift : forall m : positive, Z.pos m < 2 ^ prec ->
    let k := prec - Z.pos (digits2_pos m) in
    Z.shiftl (Z.pos (Z.to_pos (Z.pos m * 2 ^ k))) (e - k) = Z.pos m * 2 ^ e).
  { intros m Hm k.
    pose proof (digits2_le prec Hp m Hm) as Hd.
    assert (Hk : 0 <= k) by (unfold k; lia).
    rewrite Z2Pos.id by (apply Z.mul_pos_pos; [lia | apply Z.pow_pos_nonneg; lia]).
    destruct (Z.le_gt_cases k e) as [Hle|Hgt].
    - rewrite Z.shiftl_mul_pow2 by lia.
      rewrite <- Z.mul_assoc, <- Z.pow_add_r by lia. do 2 f_equal. lia.
    - rewrite Z.shiftl_div_pow2 by lia.
      replace k with (e + (k - e)) at 1 by lia.
      rewrite Z.pow_add_r, Z.mul_assoc by lia.
      replace (- (e - k)) with (k - e) by lia.
      apply Z.div_mul. apply Z.pow_nonzero; lia. }
  destruct n as [|m|m]; cbn [normal trunc cond_Zopp].
  - reflexivity.
  - now rewrite Hshift by lia.
  - rewrite Hshift by lia. f_equal. lia.
Qed.

Lemma in_range_bound T v : in_range T v -> Z.abs v < 2 ^ 64.
Proof.
  unfold in_range, min_of, max_of. destruct T; cbn [signed bits]; lia.
Qed.

Lemma to_int_float64 T v :
  in_range T v -> exact53 v = true ->
  to_int T (SFmul 53 1024 (float64 v) (const64 1 0)) = Some v.
Proof.
  intros Hr Hex.
  destruct (exact53_decompose v Hex) as (n & e & He & Hv & Hn).
  pose proof (in_range_bound T v Hr) as Hb.
  assert (He64 : e <= 64).
  { destruct (Z.eq_dec (Z.abs v) 0) as [H0|H0]; [rewrite H0 in He; simpl in He; lia|].
    assert (Z.log2 (Z.abs v) < 64) by (apply Z.log2_lt_pow2; lia). lia. }
  assert (Hf : float64 v = normal 53 n e).
  { unfold float64. apply binary_normalize_exact; [lia | lia | | split; lia].
    apply (same_value_intro _ _ _ _ 0); [lia | lia |].
    rewrite !Z.sub_0_r, Z.pow_0_r. lia. }
  rewrite Hf. change (const64 1 0) with (normal 53 1 0).
  rewrite (SFmul_pow2_r 53 1024) by (lia || (split; lia)).
  unfold to_int. rewrite trunc_normal by lia.
  rewrite Z.add_0_r, <- Hv.
  destruct Hr as [Hlo Hhi].
  apply Z.leb_le in Hlo, Hhi. now rewrite Hlo, Hhi.
Qed.

(** C9, as amended.  For every integer type [T] and every value [v] of [T]
    with at most 53 significant bits (every [v] with [|v| <= 2^53], hence
    every value of the 8-, 16- and 32-bit types), [Jitter(v, 0)] returns
    exactly [v], whatever word is drawn. *)
Theorem Jitter_zero_factor (T : IntType) (v : Z) (sz : bool) (s : Source) :
  in_range T v -> exact53 v = true ->
  Jitter T v (S754_zero sz) s = Ret (Some v) (advance s).
Proof.
  intros Hr Hex. unfold Jitter.
  erewrite bind_Ret by apply Float64_normal. unfold mret, M_ret. f_equal.
  pose proof (land_mask (uint64 (peek 0 s)) 53 ltac:(lia)) as Hx.
  set (x := Z.land (uint64 (peek 0 s)) (Z.shiftl 1 53 - 1)) in *.
  change (const64 2 0) with (normal 53 1 1).
  rewrite (SFmul_pow2_l 53 1024) by (lia || (split; lia)).
  change (const64 1 0) with (normal 53 1 0) at 2.
  change (1 + -53) with (-52).
  rewrite twice_minus_one_exact by exact Hx.
  rewrite one_plus_zero_times by apply normal_finite_or_zero.
  now apply to_int_float64.
Qed.

Lemma Jitter_zero_factor_witness :
  in_range TInt16 (-300) /\ exact53 (-300) = true /\
  Jitter TInt16 (-300) (S754_zero false) (constant_source 77)
  = Ret (Some (-300)) (advance (constant_source 77)).
Proof.
  assert (Hr : in_range TInt16 (-300)) by (split; vm_compute; discriminate).
  split; [exact Hr|]. split; [reflexivity|].
  exact (Jitter_zero_factor TInt16 (-300) false (constant_source 77) Hr eq_refl).
Defined.

(** C9 as stated fails: the int64 value [2^53 + 1] has 54 significant
    bits, [float64] rounds it to [2^53], and [Jitter] returns [2^53]. *)
Lemma Jitter_zero_factor_counterexample :
  in_range TInt64 9007199254740993 /\
  Jitter TInt64 9007199254740993 (S754_zero false) (constant_source 0)
  = Ret (Some 9007199254740992) (advance (constant_source 0)) /\
  Jitter TInt64 9007199254740993 (S754_zero false) (constant_source 0)
  <> Ret (Some 9007199254740993) (advance (constant_source 0)).
Proof.
  split; [split; vm_compute; discriminate|].
  assert (E : Jitter TInt64 9007199254740993 (S754_zero false) (constant_source 0)
              = Ret (Some 9007199254740992) (advance (constant_source 0)))
    by (vm_compute; reflexivity).
  split; [exact E|]. rewrite E. intros H. inversion H.
Qed.

(** ** [putU64] in the two builds *)

Lemma run_stores p v mem s :
  (8 <= len p)%nat -> within p mem ->
  SafeBuild.run (SafeBuild.rename "b" "p" SafeBuild.putU64_body) p v mem s
  = Ret (blit (off p) (le_bytes 8 v) mem) s.
Proof.
  intros Hl Hw.
  change (SafeBuild.run (SafeBuild.rename "b" "p" SafeBuild.putU64_body) p v mem)
    with (mem' ← SafeBuild.exec p v (SafeBuild.Probe "p" 7) mem;
          fill_range p v (seq 0 8) mem').
  cbn [SafeBuild.exec].
  destruct (7 <? len p)%nat eqn:E7; [|apply Nat.ltb_ge in E7; lia].
  erewrite bind_Ret by reflexivity.
  rewrite fill_range_spec by (auto; lia).
  now rewrite Nat.add_0_r.
Qed.

(** C7.  Under the tag [safe] the body of [putU64] stores through the
    identifier [b], which nothing declares (the parameter is [p]): the
    build is rejected and no byte is written, whereas the claim has this
    build write the eight bytes of [v] to [p] in little-endian order.  With
    [b] read as [p] the body writes byte [i] as [v >> (8*i)], which is what
    the default build writes on a little-endian host; on a big-endian host
    the default build writes the bytes in the opposite order. *)
Theorem putU64_safe_build_rejected :
  SafeBuild.putU64 = SafeBuild.Rejected "undefined: b" /\
  forall p v mem s, (8 <= len p)%nat -> within p mem ->
    (exists f,
       SafeBuild.compile (SafeBuild.rename "b" "p" SafeBuild.putU64_body)
         = SafeBuild.Built f /\
       f p v mem s = Ret (blit (off p) (le_bytes 8 v) mem) s) /\
    putU64 LittleEndian p v mem s = Ret (blit (off p) (le_bytes 8 v) mem) s /\
    putU64 BigEndian p v mem s = Ret (blit (off p) (rev (le_bytes 8 v)) mem) s.
Proof.
  split; [reflexivity|].
  intros p v mem s Hl Hw. split; [|split].
  - eexists. split; [reflexivity|]. now apply run_stores.
  - now apply putU64_spec.
  - now apply putU64_spec.
Qed.

Lemma putU64_safe_build_rejected_witness :
  let p := {| off := 0; len := 8 |} in
  let mem := repeat 0 8 in
  (8 <= len p)%nat /\ within p mem /\
  SafeBuild.putU64 = SafeBuild.Rejected "undefined: b" /\
  putU64 LittleEndian p 72623859790382856 mem (constant_source 0)
  = Ret [8; 7; 6; 5; 4; 3; 2; 1] (constant_source 0) /\
  putU64 BigEndian p 72623859790382856 mem (constant_source 0)
  = Ret [1; 2; 3; 4; 5; 6; 7; 8] (constant_source 0).
Proof.
  intros p mem.
  assert (Hl : (8 <= len p)%nat) by (simpl; lia).
  assert (Hw : within p mem) by (unfold within; simpl; lia).
  split; [exact Hl|]. split; [exact Hw|].
  destruct putU64_safe_build_rejected as [Hrej Hrest].
  split; [exact Hrej|].
  destruct (Hrest p 72623859790382856 mem (constant_source 0) Hl Hw)
    as (_ & Hle & Hbe).
  split; [exact Hle | exact Hbe].
Defined.

(** * Further properties *)

(** ** The samplers as one family *)

Lemma sampler_cases (P : sampler -> Prop) :
  P (mkSampler Int31n Int31 raw31 31) ->
  P (mkSampler Int63n Int63 raw63 63) ->
  P (mkSampler Uint64nUint32n u32 raw32 32) ->
  P (mkSampler Uint64n u64 raw64 64) ->
  forall S, S ∈ samplers -> P S.
Proof.
  intros H1 H2 H3 H4 S HS. unfold samplers in HS.
  repeat (apply elem_of_cons in HS as [->|HS]; [assumption|]).
  now apply elem_of_nil in HS.
Qed.

Ltac by_sampler :=
  match goal with
  | |- forall S, S ∈ samplers -> @?P S => apply (sampler_cases P)
  end.

Lemma sampler_draw S :
  S ∈ samplers ->
  (forall s, draw S s = Ret (raw_value S (peek 0 s)) (advance s)) /\
  (forall v, 0 <= v <= max_raw S <-> exists w, raw_value S w = v).
Proof.
  revert S. by_sampler; (split; [reflexivity|]).
  - apply raw31_onto.
  - apply raw63_onto.
  - apply raw32_onto.
  - apply raw64_onto.
Qed.

Lemma sampler_raw_range S w : S ∈ samplers -> 0 <= raw_value S w <= max_raw S.
Proof. intros HS. apply (sampler_draw S HS). eauto. Qed.

(** The body of each sampler on a bound in range: the mask for a power of
    two, the rejection loop otherwise. *)
Lemma sampler_unfold S :
  S ∈ samplers ->
  forall fuel n s, 0 < n <= max_raw S ->
    run_sampler S fuel n s
    = if is_pow2 n then (v ← draw S; mret (Z.land v (n - 1))) s
      else (v ← draw S; v ← reject_loop fuel (draw S) (threshold S n) v;
            go_rem v n) s.
Proof.
  revert S. by_sampler; intros fuel n s Hn;
    unfold max_raw, threshold in *; cbn [run_sampler draw raw_bits] in *;
    destruct (is_pow2 n) eqn:Hp.
  - rewrite Int31n_pow2 by (rewrite ?maxInt32_eq; auto; lia). reflexivity.
  - unfold Int31n.
    destruct (n <=? 0) eqn:E0; [apply Z.leb_le in E0; lia|].
    rewrite (int32_id (n - 1)) by lia.
    destruct (Z.land n (n - 1) =? 0) eqn:E1;
      [apply Z.eqb_eq in E1; now apply land_pred_not_pow2 in E1; [|lia|]|].
    erewrite bind_Ret by (apply go_rem_pos; [rewrite maxInt32_eq|]; lia).
    pose proof (Z.mod_pos_bound maxInt32 n ltac:(lia)) as Hr.
    rewrite int32_id by (rewrite maxInt32_eq in *; lia). reflexivity.
  - rewrite Int63n_pow2 by (rewrite ?maxInt64_eq; auto; lia). reflexivity.
  - unfold Int63n.
    destruct (n <=? 0) eqn:E0; [apply Z.leb_le in E0; lia|].
    rewrite (int64_id (n - 1)) by lia.
    destruct (Z.land n (n - 1) =? 0) eqn:E1;
      [apply Z.eqb_eq in E1; now apply land_pred_not_pow2 in E1; [|lia|]|].
    erewrite bind_Ret by (apply go_rem_pos; [rewrite maxInt64_eq|]; lia).
    pose proof (Z.mod_pos_bound maxInt64 n ltac:(lia)) as Hr.
    rewrite int64_id by (rewrite maxInt64_eq in *; lia). reflexivity.
  - rewrite Uint64nUint32n_pow2 by (rewrite ?maxUint32_eq; auto; lia). reflexivity.
  - unfold Uint64nUint32n.
    rewrite (uint32_id (n - 1)), (uint32_id n) by lia.
    destruct (Z.land n (n - 1) =? 0) eqn:E1;
      [apply Z.eqb_eq in E1; now apply land_pred_not_pow2 in E1; [|lia|]|].
    erewrite bind_Ret by (apply go_rem_pos; [rewrite maxUint32_eq|]; lia).
    pose proof (Z.mod_pos_bound maxUint32 n ltac:(lia)) as Hr.
    rewrite uint32_id by (rewrite maxUint32_eq in *; lia). reflexivity.
  - rewrite Uint64n_pow2 by (rewrite ?maxUint64_eq; auto; lia). reflexivity.
  - unfold Uint64n.
    rewrite (uint64_id (n - 1)), (uint64_id n) by lia.
    destruct (Z.land n (n - 1) =? 0) eqn:E1;
      [apply Z.eqb_eq in E1; now apply land_pred_not_pow2 in E1; [|lia|]|].
    erewrite bind_Ret by (apply go_rem_pos; [rewrite maxUint64_eq|]; lia).
    pose proof (Z.mod_pos_bound maxUint64 n ltac:(lia)) as Hr.
    rewrite uint64_id by (rewrite maxUint64_eq in *; lia). reflexivity.
Qed.

Lemma land_pow2_mod v n :
  is_pow2 n = true -> Z.land v (n - 1) = v mod n.
Proof.
  intros (k & Hk & ->)%is_pow2_spec.
  replace (2 ^ k - 1) with (Z.ones k) by (rewrite Z.ones_equiv; lia).
  now rewrite Z.land_ones by lia.
Qed.

Lemma threshold_bounds S n :
  0 < n <= max_raw S ->
  n <= threshold S n <= max_raw S /\ max_raw S < 2 * threshold S n /\
  max_raw S - threshold S n < n.
Proof.
  intros Hn. unfold threshold.
  pose proof (Z.div_mod (max_raw S) n ltac:(lia)) as Hdm.
  pose proof (Z.mod_pos_bound (max_raw S) n ltac:(lia)) as Hr.
  assert (0 < max_raw S / n) by (apply Z.div_str_pos; lia).
  nia.
Qed.

(** ** A word accepted at the first draw *)

Lemma sampler_first_draw S fuel n s :
  S ∈ samplers -> 0 < n <= max_raw S ->
  is_pow2 n = true \/ raw_value S (peek 0 s) < threshold S n ->
  run_sampler S fuel n s = Ret (raw_value S (peek 0 s) mod n) (advance s).
Proof.
  intros HS Hn Hacc. destruct (sampler_draw S HS) as [Hd _].
  pose proof (sampler_raw_range S (peek 0 s) HS) as Hr.
  rewrite (sampler_unfold S HS) by exact Hn.
  destruct (is_pow2 n) eqn:Hp.
  - erewrite bind_Ret by apply Hd. unfold mret, M_ret.
    now rewrite land_pow2_mod.
  - destruct Hacc as [Hacc|Hacc]; [discriminate|].
    rewrite (sample_tail (draw S) (raw_value S) Hd
               (fun w => proj1 (sampler_raw_range S w HS)) fuel _ n 0 s);
      [now rewrite skip_1 | lia | lia | intros; lia | exact Hacc].
Qed.

(** X1. Each of the four bounded samplers, on a bound [n > 0] in range,
    returns a raw value below [n] as it is, after a single draw and
    whatever the fuel: values below the bound are never rejected and never
    changed. *)
Theorem sampler_small_raw_unchanged S fuel n s :
  S ∈ samplers -> 0 < n <= max_raw S ->
  raw_value S (peek 0 s) < n ->
  run_sampler S fuel n s = Ret (raw_value S (peek 0 s)) (advance s).
Proof.
  intros HS Hn Hlt.
  pose proof (sampler_raw_range S (peek 0 s) HS) as Hr.
  pose proof (threshold_bounds S n Hn) as (Ht & _).
  rewrite (sampler_first_draw S fuel n s HS Hn) by (right; lia).
  now rewrite Z.mod_small by lia.
Qed.

Lemma sampler_small_raw_unchanged_witness :
  mkSampler Int63n Int63 raw63 63 ∈ samplers /\
  0 < 1000 <= max_raw (mkSampler Int63n Int63 raw63 63) /\
  raw63 (peek 0 (constant_source 1999)) < 1000 /\
  Int63n 0 1000 (constant_source 1999) = Ret 999 (advance (constant_source 1999)).
Proof.
  assert (HS : mkSampler Int63n Int63 raw63 63 ∈ samplers)
    by (unfold samplers; apply elem_of_cons; right; apply elem_of_cons; now left).
  assert (Hn : 0 < 1000 <= max_raw (mkSampler Int63n Int63 raw63 63))
    by (vm_compute; split; [reflexivity | discriminate]).
  assert (Hr : raw63 (peek 0 (constant_source 1999)) < 1000) by reflexivity.
  split; [exact HS|]. split; [exact Hn|]. split; [exact Hr|].
  exact (sampler_small_raw_unchanged _ 0 1000 (constant_source 1999) HS Hn Hr).
Defined.

(** X2. Each sampler rejects fewer raw values than the bound and fewer than
    it accepts: a raw value in the lower half of the range (at most
    [MAXVAL / 2]) is accepted at the first draw, for every bound in range,
    and [raw mod n] is returned. *)
Theorem sampler_lower_half_accepted S fuel n s :
  S ∈ samplers -> 0 < n <= max_raw S ->
  (is_pow2 n = false ->
     max_raw S + 1 - threshold S n < n /\
     max_raw S + 1 - threshold S n <= threshold S n) /\
  (raw_value S (peek 0 s) <= max_raw S / 2 ->
     run_sampler S fuel n s = Ret (raw_value S (peek 0 s) mod n) (advance s)).
Proof.
  intros HS Hn.
  pose proof (threshold_bounds S n Hn) as (Ht & H2 & Hrej).
  split.
  - intros Hp. split; [|lia].
    assert (Hne : max_raw S mod n <> n - 1).
    { intros E.
      assert (Hd : (n | 2 ^ Z.of_nat (raw_bits S))).
      { exists (max_raw S / n + 1).
        pose proof (Z.div_mod (max_raw S) n ltac:(lia)) as Hdm.
        unfold max_raw in *. lia. }
      apply divide_pow2 in Hd; [congruence | lia]. }
    unfold threshold in *. lia.
  - intros Hhalf. apply sampler_first_draw; auto. right.
    assert (max_raw S / 2 < threshold S n); [|lia].
    apply Z.div_lt_upper_bound; lia.
Qed.

Lemma sampler_lower_half_accepted_witness :
  mkSampler Uint64nUint32n u32 raw32 32 ∈ samplers /\
  0 < 3000000000 <= max_raw (mkSampler Uint64nUint32n u32 raw32 32) /\
  Uint64nUint32n 0 3000000000 (constant_source 2147483647)
  = Ret 2147483647 (advance (constant_source 2147483647)).
Proof.
  assert (HS : mkSampler Uint64nUint32n u32 raw32 32 ∈ samplers)
    by (unfold samplers; do 2 (apply elem_of_cons; right); apply elem_of_cons; now left).
  assert (Hn : 0 < 3000000000 <= max_raw (mkSampler Uint64nUint32n u32 raw32 32))
    by (vm_compute; split; [reflexivity | discriminate]).
  split; [exact HS|]. split; [exact Hn|].
  destruct (sampler_lower_half_accepted _ 0 3000000000 (constant_source 2147483647) HS Hn)
    as [_ H].
  apply H. vm_compute. discriminate.
Defined.

(** ** The unbounded generators *)

(** X3. [Int31], [Int63], [Uint32] and [Uint64] (the draws the bounded
    samplers are built on) consume exactly one word and return a value
    between [0] and the maximum of their width ([2^31-1], [2^63-1],
    [2^32-1], [2^64-1]): the signed ones are never negative.  Every value
    of that range is returned for some word. *)
Theorem plain_generators_range S (s : Source) :
  S ∈ samplers ->
  (exists v, draw S s = Ret v (advance s) /\ 0 <= v <= max_raw S) /\
  (forall v, 0 <= v <= max_raw S ->
     exists w, draw S {| words := fun _ => w; cursor := cursor s |}
               = Ret v (advance {| words := fun _ => w; cursor := cursor s |})).
Proof.
  intros HS. destruct (sampler_draw S HS) as [Hd Hon]. split.
  - exists (raw_value S (peek 0 s)). split; [apply Hd | now apply sampler_raw_range].
  - intros v Hv. apply Hon in Hv as [w Hw]. exists w.
    rewrite Hd. unfold peek; cbn [words]. now rewrite Hw.
Qed.

Lemma plain_generators_range_witness :
  mkSampler Int31n Int31 raw31 31 ∈ samplers /\
  exists v, Int31 (constant_source 4294967295) = Ret v (advance (constant_source 4294967295))
            /\ 0 <= v <= max_raw (mkSampler Int31n Int31 raw31 31).
Proof.
  assert (HS : mkSampler Int31n Int31 raw31 31 ∈ samplers)
    by (unfold samplers; apply elem_of_cons; now left).
  split; [exact HS|].
  exact (proj1 (plain_generators_range _ (constant_source 4294967295) HS)).
Defined.

(** ** Every run of a bounded sampler *)

Lemma sampler_run S fuel n s :
  S ∈ samplers -> 0 < n <= max_raw S ->
  run_sampler S fuel n s = OutOfFuel \/
  exists r k, run_sampler S fuel n s = Ret r (skip (Datatypes.S k) s) /\ 0 <= r < n.
Proof.
  intros HS Hn. destruct (sampler_draw S HS) as [Hd _].
  assert (Hr : forall w, 0 <= raw_value S w)
    by (intros w; apply (sampler_raw_range S w HS)).
  rewrite (sampler_unfold S HS) by exact Hn.
  destruct (is_pow2 n) eqn:Hp.
  - right. exists (raw_value S (peek 0 s) mod n), 0%nat.
    erewrite bind_Ret by apply Hd. unfold mret, M_ret.
    rewrite land_pow2_mod, skip_1 by exact Hp.
    split; [reflexivity | apply Z.mod_pos_bound; lia].
  - erewrite bind_Ret by apply Hd.
    destruct (reject_loop_run (draw S) (raw_value S) (threshold S n) Hd Hr fuel
                (raw_value S (peek 0 s)) (advance s) (Hr _))
      as [E|(v' & k & E & Hv')].
    + left. now apply bind_OutOfFuel.
    + right. exists (v' mod n), k.
      erewrite bind_Ret by apply E.
      rewrite go_rem_pos, skip_advance by lia.
      split; [reflexivity | apply Z.mod_pos_bound; lia].
Qed.

(** X4. On every bound [n > 0] of its type, power of two or not, a bounded
    sampler never panics, and whenever it returns the result lies in
    [[0, n)] and at least one word has been drawn. *)
Theorem sampler_result_in_range S fuel n s :
  S ∈ samplers -> 0 < n <= max_raw S ->
  benign (run_sampler S fuel n s) /\
  forall r s', run_sampler S fuel n s = Ret r s' ->
    0 <= r < n /\ exists k, s' = skip (Datatypes.S k) s.
Proof.
  intros HS Hn.
  destruct (sampler_run S fuel n s HS Hn) as [E|(r & k & E & Hr)]; rewrite E.
  - split; [exact I | discriminate].
  - split; [exact I|]. intros r' s' H. injection H as <- <-. eauto.
Qed.

Lemma sampler_result_in_range_witness :
  mkSampler Uint64n u64 raw64 64 ∈ samplers /\
  0 < 1024 <= max_raw (mkSampler Uint64n u64 raw64 64) /\
  benign (Uint64n 2 1024 (constant_source 5000)) /\
  forall r s', Uint64n 2 1024 (constant_source 5000) = Ret r s' -> 0 <= r < 1024.
Proof.
  assert (HS : mkSampler Uint64n u64 raw64 64 ∈ samplers)
    by (unfold samplers; do 3 (apply elem_of_cons; right); apply elem_of_cons; now left).
  assert (Hn : 0 < 1024 <= max_raw (mkSampler Uint64n u64 raw64 64))
    by (vm_compute; split; [reflexivity | discriminate]).
  split; [exact HS|]. split; [exact Hn|].
  destruct (sampler_result_in_range _ 2 1024 (constant_source 5000) HS Hn) as [Hb Hr].
  split; [exact Hb|]. intros r s' H. exact (proj1 (Hr r s' H)).
Defined.

(** ** The mask path is unbiased *)

Lemma pow2_divides_range S n :
  0 < n <= max_raw S -> is_pow2 n = true -> (n | max_raw S + 1).
Proof.
  intros Hn (k & Hk & ->)%is_pow2_spec. unfold max_raw in *.
  set (w := Z.of_nat (raw_bits S)) in *.
  assert (Hw : 0 <= w) by (unfold w; lia).
  assert (Hkw : k < w).
  { destruct (Z.lt_ge_cases k w) as [|Hge]; [assumption|].
    assert (2 ^ w <= 2 ^ k) by (apply Z.pow_le_mono_r; lia). lia. }
  exists (2 ^ (w - k)).
  rewrite Z.sub_add, <- Z.pow_add_r by lia. f_equal. lia.
Qed.

(** X5. On a bound [n > 0] that is a power of two the mask [raw & (n-1)]
    is [raw mod n], the same reduction the rejection path applies, and no
    raw value is wasted: each outcome [k] in [[0, n)] is the image of
    exactly [(MAXVAL + 1) / n] of the raw values [0..MAXVAL]. *)
Theorem pow2_bound_unbiased S n :
  S ∈ samplers -> 0 < n <= max_raw S -> is_pow2 n = true ->
  (forall fuel s,
     run_sampler S fuel n s = Ret (raw_value S (peek 0 s) mod n) (advance s)) /\
  (forall k, 0 <= k < n ->
     exists l, accepted_preimages n (max_raw S + 1) k l /\
               Z.of_nat (length l) = (max_raw S + 1) / n).
Proof.
  intros HS Hn Hp. split.
  - intros fuel s. apply sampler_first_draw; auto.
  - intros k Hk. apply equal_mass; [lia | now apply pow2_divides_range | lia | exact Hk].
Qed.

Lemma pow2_bound_unbiased_witness :
  mkSampler Int31n Int31 raw31 31 ∈ samplers /\
  0 < 16 <= max_raw (mkSampler Int31n Int31 raw31 31) /\ is_pow2 16 = true /\
  Int31n 0 16 (constant_source 77) = Ret 6 (advance (constant_source 77)) /\
  exists l, accepted_preimages 16 (2 ^ 31) 3 l /\ Z.of_nat (length l) = 2 ^ 27.
Proof.
  assert (HS : mkSampler Int31n Int31 raw31 31 ∈ samplers)
    by (unfold samplers; apply elem_of_cons; now left).
  assert (Hn : 0 < 16 <= max_raw (mkSampler Int31n Int31 raw31 31))
    by (vm_compute; split; [reflexivity | discriminate]).
  split; [exact HS|]. split; [exact Hn|]. split; [reflexivity|].
  destruct (pow2_bound_unbiased _ 16 HS Hn eq_refl) as [Hrun Hmass].
  split; [exact (Hrun 0%nat (constant_source 77))|].
  apply (Hmass 3). lia.
Defined.

(** ** A stream of rejected words *)

Lemma reject_loop_starve dr raw max :
  (forall s, dr s = Ret (raw (peek 0 s)) (advance s)) ->
  forall fuel v s, max <= v ->
    (forall i, (i < fuel)%nat -> max <= raw (peek i s)) ->
    reject_loop fuel dr max v s = OutOfFuel.
Proof.
  intros Hd. induction fuel as [|fuel IH]; intros v s Hv Hrej; simpl;
    apply Z.leb_le in Hv; rewrite Hv; [reflexivity|].
  erewrite bind_Ret by apply Hd. apply IH.
  - apply (Hrej 0%nat). lia.
  - intros i Hi. rewrite peek_advance. apply Hrej. lia.
Qed.

(** X6. The rejection loop has no bound of its own: on a bound that is not
    a power of two, a sampler whose every draw is at or above the threshold
    never returns, however much fuel it is given (it neither returns a
    value nor panics). *)
Theorem sampler_spins_on_rejected_stream S n s :
  S ∈ samplers -> 0 < n <= max_raw S -> is_pow2 n = false ->
  (forall i, threshold S n <= raw_value S (peek i s)) ->
  forall fuel, run_sampler S fuel n s = OutOfFuel.
Proof.
  intros HS Hn Hp Hrej fuel. destruct (sampler_draw S HS) as [Hd _].
  rewrite (sampler_unfold S HS) by exact Hn. rewrite Hp.
  erewrite bind_Ret by apply Hd. apply bind_OutOfFuel.
  apply (reject_loop_starve (draw S) (raw_value S)); [exact Hd | apply Hrej |].
  intros i _. rewrite peek_advance. apply Hrej.
Qed.

Lemma sampler_spins_on_rejected_stream_witness :
  mkSampler Uint64n u64 raw64 64 ∈ samplers /\
  0 < 3 <= max_raw (mkSampler Uint64n u64 raw64 64) /\ is_pow2 3 = false /\
  (forall i, threshold (mkSampler Uint64n u64 raw64 64) 3
             <= raw64 (peek i (constant_source 18446744073709551615))) /\
  forall fuel, Uint64n fuel 3 (constant_source 18446744073709551615) = OutOfFuel.
Proof.
  assert (HS : mkSampler Uint64n u64 raw64 64 ∈ samplers)
    by (unfold samplers; do 3 (apply elem_of_cons; right); apply elem_of_cons; now left).
  assert (Hn : 0 < 3 <= max_raw (mkSampler Uint64n u64 raw64 64))
    by (vm_compute; split; [reflexivity | discriminate]).
  assert (Hrej : forall i, threshold (mkSampler Uint64n u64 raw64 64) 3
                   <= raw64 (peek i (constant_source 18446744073709551615)))
    by (intros i; vm_compute; discriminate).
  split; [exact HS|]. split; [exact Hn|]. split; [reflexivity|]. split; [exact Hrej|].
  exact (sampler_spins_on_rejected_stream _ 3 _ HS Hn eq_refl Hrej).
Defined.

(** ** Filling in pieces *)

Lemma chunk_bytes_app bo k q : forall s,
  chunk_bytes bo (k + q) s = chunk_bytes bo k s ++ chunk_bytes bo q (skip k s).
Proof.
  induction k as [|k IH]; intros s; cbn [chunk_bytes Nat.add].
  - now rewrite skip_0.
  - now rewrite IH, skip_advance, app_assoc.
Qed.

Lemma stream_bytes_split bo k m s :
  stream_bytes bo (8 * k + m) s
  = chunk_bytes bo k s ++ stream_bytes bo m (skip k s) /\
  draws (8 * k + m) = (k + draws m)%nat.
Proof.
  assert (Hd : ((8 * k + m) / 8 = k + m / 8)%nat).
  { replace (8 * k + m)%nat with (k * 8 + m)%nat by lia.
    apply Nat.div_add_l. lia. }
  assert (Hm : ((8 * k + m) mod 8 = m mod 8)%nat).
  { replace (8 * k + m)%nat with (m + k * 8)%nat by lia.
    apply Nat.Div0.mod_add. }
  unfold stream_bytes, draws. rewrite Hd, Hm. split; [|lia].
  now rewrite chunk_bytes_app, skip_skip, app_assoc.
Qed.

(** X7. Filling a buffer in two pieces cut at a multiple of 8 bytes is
    filling it in one go: [Fill(p[:8k])] followed by [Fill(p[8k:])] leaves
    the same bytes and the same word source as [Fill(p)], and two [Read]
    calls on the pieces report counts that add up to [len(p)]. *)
Theorem Fill_in_pieces (bo : ByteOrder) (p : slice) (k : nat) (mem : list Z) (s : Source) :
  within p mem -> (8 * k <= len p)%nat ->
  (mem1 ← Fill bo (slice_to p (8 * k)) mem; Fill bo (slice_from p (8 * k)) mem1) s
  = Fill bo p mem s /\
  exists mem1 mem2 s1 s2,
    Read Reader bo (slice_to p (8 * k)) mem s
      = Ret (mem1, (Z.of_nat (8 * k), None)) s1 /\
    Read Reader bo (slice_from p (8 * k)) mem1 s1
      = Ret (mem2, (Z.of_nat (len p) - Z.of_nat (8 * k), None)) s2 /\
    Read Reader bo p mem s = Ret (mem2, (Z.of_nat (len p), None)) s2.
Proof.
  intros Hw Hk. unfold within in Hw.
  set (m := (len p - 8 * k)%nat).
  assert (Hlen : len p = (8 * k + m)%nat) by (unfold m; lia).
  destruct (stream_bytes_split bo k m s) as [Hsb Hdr].
  destruct (stream_bytes_split bo k 0 s) as [Hsb0 Hdr0].
  rewrite Nat.add_0_r in Hsb0, Hdr0.
  change (stream_bytes bo 0 (skip k s)) with (@nil Z) in Hsb0.
  change (draws 0) with 0%nat in Hdr0.
  rewrite app_nil_r in Hsb0. rewrite Nat.add_0_r in Hdr0.
  assert (H1 : Fill bo (slice_to p (8 * k)) mem s
               = Ret (blit (off p) (chunk_bytes bo k s) mem) (skip k s)).
  { rewrite Fill_spec by (unfold within, slice_to; cbn [off len]; lia).
    cbn [slice_to off len]. now rewrite Hsb0, Hdr0. }
  assert (Hl1 : length (blit (off p) (chunk_bytes bo k s) mem) = length mem).
  { apply length_blit. rewrite length_chunk_bytes. lia. }
  assert (H2 : Fill bo (slice_from p (8 * k)) (blit (off p) (chunk_bytes bo k s) mem) (skip k s)
               = Ret (blit (off p) (stream_bytes bo (len p) s) mem) (skip (draws (len p)) s)).
  { rewrite Fill_spec by (unfold within, slice_from; cbn [off len]; lia).
    cbn [slice_from off len]. fold m.
    rewrite <- (length_chunk_bytes bo k s) at 1.
    rewrite blit_app by (rewrite length_chunk_bytes; lia).
    rewrite skip_skip, Hlen, Hsb, Hdr. reflexivity. }
  assert (H3 := Fill_spec bo p mem s Hw).
  split.
  - erewrite bind_Ret by exact H1. now rewrite H2, H3.
  - exists (blit (off p) (chunk_bytes bo k s) mem),
           (blit (off p) (stream_bytes bo (len p) s) mem),
           (skip k s), (skip (draws (len p)) s).
    unfold Read. split; [|split].
    + erewrite bind_Ret by exact H1. reflexivity.
    + erewrite bind_Ret by exact H2. unfold mret, M_ret. cbn [slice_from len].
      do 3 f_equal. lia.
    + erewrite bind_Ret by exact H3. reflexivity.
Qed.

Lemma Fill_in_pieces_witness :
  let p := {| off := 2; len := 19 |} in
  let mem := repeat 0 24 in
  let s := list_source [1; 2; 3] in
  within p mem /\ (8 * 1 <= len p)%nat /\
  (mem1 ← Fill LittleEndian (slice_to p (8 * 1)) mem;
   Fill LittleEndian (slice_from p (8 * 1)) mem1) s
  = Fill LittleEndian p mem s.
Proof.
  intros p mem s.
  assert (Hw : within p mem) by (unfold within; simpl; lia).
  assert (Hk : (8 * 1 <= len p)%nat) by (simpl; lia).
  split; [exact Hw|]. split; [exact Hk|].
  exact (proj1 (Fill_in_pieces LittleEndian p 1 mem s Hw Hk)).
Defined.

(** ** Reading the bytes back *)

Lemma le_bytes_S n v : le_bytes (S n) v = byte v :: le_bytes n (Z.shiftr v 8).
Proof.
  unfold le_bytes. cbn [seq map]. f_equal.
  rewrite <- seq_shift, map_map. apply map_ext. intros i.
  rewrite Z.shiftr_shiftr by lia. do 2 f_equal. lia.
Qed.

Lemma le_decode_le_bytes n : forall v,
  le_decode (le_bytes n v) = v mod 2 ^ (8 * Z.of_nat n).
Proof.
  induction n as [|n IH]; intros v.
  - cbn. now rewrite Z.mod_1_r.
  - rewrite le_bytes_S. cbn [le_decode foldr]. fold (le_decode (le_bytes n (Z.shiftr v 8))).
    rewrite IH, Z.shiftr_div_pow2 by lia. unfold byte.
    replace (8 * Z.of_nat (S n)) with (8 + 8 * Z.of_nat n) by lia.
    rewrite Z.pow_add_r by lia.
    rewrite (Z.rem_mul_r v (2 ^ 8) (2 ^ (8 * Z.of_nat n)));
      [reflexivity | lia | apply Z.pow_pos_nonneg; lia].
Qed.

(** X8. The bytes [putU64] and [fill] write can be read back: the eight
    bytes [putU64] stores for a 64-bit [v], read in the byte order of the
    host, are [v]; the bytes [fill] stores, read least significant first,
    are [v] reduced modulo [2^(8*len(p))], hence [v] itself as soon as the
    buffer is as wide as the word. *)
Theorem stored_bytes_read_back (bo : ByteOrder) (p : slice) (v : Z) (mem : list Z)
    (s : Source) :
  within p mem -> 0 <= v < 2 ^ 64 ->
  ((8 <= len p)%nat ->
     exists mem', putU64 bo p v mem s = Ret mem' s /\
                  host_decode bo (take 8 (window p mem')) = v) /\
  (exists mem', fill p v mem s = Ret mem' s /\
                le_decode (window p mem') = v mod 2 ^ (8 * Z.of_nat (len p)) /\
                ((8 <= len p)%nat -> le_decode (window p mem') = v)).
Proof.
  intros Hw Hv. split.
  - intros Hl. exists (blit (off p) (host_bytes bo 8 v) mem).
    split; [now apply putU64_spec|].
    assert (Ht : take 8 (window p (blit (off p) (host_bytes bo 8 v) mem))
                 = host_bytes bo 8 v).
    { unfold window, blit, within in *.
      rewrite drop_app_length' by (rewrite length_take; lia).
      rewrite take_take, Nat.min_l by lia.
      apply take_app_length'. now rewrite length_host_bytes. }
    rewrite Ht. destruct bo; cbn [host_decode host_bytes]; rewrite ?rev_involutive;
      rewrite le_decode_le_bytes; apply Z.mod_small; exact Hv.
  - exists (blit (off p) (le_bytes (len p) v) mem).
    split; [now apply fill_spec|].
    rewrite window_blit by (auto using length_le_bytes).
    split; [apply le_decode_le_bytes|].
    intros Hl. rewrite le_decode_le_bytes. apply Z.mod_small.
    assert (2 ^ 64 <= 2 ^ (8 * Z.of_nat (len p))) by (apply Z.pow_le_mono_r; lia).
    lia.
Qed.

Lemma stored_bytes_read_back_witness :
  let p := {| off := 0; len := 8 |} in
  within p (repeat 0 8) /\ 0 <= 258 < 2 ^ 64 /\
  exists mem', putU64 BigEndian p 258 (repeat 0 8) (constant_source 0)
               = Ret mem' (constant_source 0) /\
               host_decode BigEndian (take 8 (window p mem')) = 258.
Proof.
  intros p.
  assert (Hw : within p (repeat 0 8)) by (unfold within; simpl; lia).
  assert (Hv : 0 <= 258 < 2 ^ 64) by lia.
  split; [exact Hw|]. split; [exact Hv|].
  apply (stored_bytes_read_back BigEndian p 258 (repeat 0 8) (constant_source 0) Hw Hv).
  simpl; lia.
Defined.

(** ** The memory stays an array of bytes *)

Lemma le_bytes_is_byte n v : Forall is_byte (le_bytes n v).
Proof.
  unfold le_bytes. apply Forall_map, Forall_forall. intros i _.
  unfold is_byte, byte. change 256 with (2 ^ 8). apply Z.mod_pos_bound. lia.
Qed.

Lemma host_bytes_is_byte bo n v : Forall is_byte (host_bytes bo n v).
Proof.
  destruct bo; cbn [host_bytes]; [|apply Forall_rev]; apply le_bytes_is_byte.
Qed.

Lemma stream_bytes_is_byte bo n s : Forall is_byte (stream_bytes bo n s).
Proof.
  unfold stream_bytes. apply Forall_app. split.
  - generalize (n / 8)%nat. intros q. revert s.
    induction q as [|q IH]; intros s; cbn [chunk_bytes]; [constructor|].
    apply Forall_app. split; [apply host_bytes_is_byte | apply IH].
  - unfold tail_bytes.
    destruct (4 <? n mod 8)%nat; [apply le_bytes_is_byte|].
    destruct (0 <? n mod 8)%nat; [apply le_bytes_is_byte | constructor].
Qed.

(** X9. [Fill] writes bytes: after the call every element of the buffer
    lies in [[0, 256)], whatever the buffer held, and a backing array that
    held only bytes still holds only bytes. *)
Theorem Fill_keeps_bytes (bo : ByteOrder) (p : slice) (mem : list Z) (s : Source) :
  within p mem ->
  exists mem' s', Fill bo p mem s = Ret mem' s' /\
    Forall is_byte (window p mem') /\
    (Forall is_byte mem -> Forall is_byte mem').
Proof.
  intros Hw. eexists _, _. split; [now apply Fill_spec|]. split.
  - rewrite window_blit by (auto using length_stream_bytes).
    apply stream_bytes_is_byte.
  - intros Hm. unfold blit. rewrite !Forall_app.
    split; [now apply Forall_take|].
    split; [apply stream_bytes_is_byte | now apply Forall_drop].
Qed.

Lemma Fill_keeps_bytes_witness :
  let p := {| off := 1; len := 3 |} in
  within p [1000; 1000; 1000; 1000; 1000] /\
  exists mem' s', Fill LittleEndian p [1000; 1000; 1000; 1000; 1000] (constant_source 66051)
                  = Ret mem' s' /\ Forall is_byte (window p mem').
Proof.
  intros p.
  assert (Hw : within p [1000; 1000; 1000; 1000; 1000]) by (unfold within; simpl; lia).
  split; [exact Hw|].
  destruct (Fill_keeps_bytes LittleEndian p _ (constant_source 66051) Hw)
    as (mem' & s' & HF & HB & _).
  exists mem', s'. split; [exact HF | exact HB].
Defined.

(** ** The values of the float generators *)

Lemma normal_inj prec x y e :
  0 < prec -> Z.abs x < 2 ^ prec -> Z.abs y < 2 ^ prec ->
  normal prec x e = normal prec y e -> x = y.
Proof.
  intros Hp Hx Hy E.
  destruct (SF2Q_normal prec Hp x e Hx) as (qx & Hqx & Hvx).
  destruct (SF2Q_normal prec Hp y e Hy) as (qy & Hqy & Hvy).
  rewrite E, Hqy in Hqx. injection Hqx as Hq.
  assert (H2 : ~ (Qpower 2 e == 0)%Q) by (apply Qpower_not_0; discriminate).
  assert (Hxy : (inject_Z x * Qpower 2 e == inject_Z y * Qpower 2 e)%Q).
  { rewrite <- Hvx, <- Hvy. unfold Qeq. now rewrite Hq. }
  apply Qmult_inj_r in Hxy; [|exact H2].
  now apply inject_Z_injective.
Qed.

Lemma land_low_bits w k : 0 <= k -> Z.land w (Z.shiftl 1 k - 1) = w mod 2 ^ k.
Proof.
  intros Hk. rewrite Z.shiftl_1_l.
  replace (2 ^ k - 1) with (Z.ones k) by (rewrite Z.ones_equiv; lia).
  now rewrite Z.land_ones by lia.
Qed.

(** X10. [Float64] looks at the low 53 bits of the word it draws and at
    nothing else: two draws give the same float exactly when their words
    agree on those bits, so every one of the [2^53] values [k * 2^-53]
    comes from the same number of 64-bit words.  [Float32] does the same
    with the low 24 bits of a 32-bit word. *)
Theorem float_generators_grid (s1 s2 : Source) :
  (exists f1 f2,
     Float64 s1 = Ret f1 (advance s1) /\ Float64 s2 = Ret f2 (advance s2) /\
     (f1 = f2 <-> uint64 (peek 0 s1) mod 2 ^ 53 = uint64 (peek 0 s2) mod 2 ^ 53)) /\
  (exists f1 f2,
     Float32 s1 = Ret f1 (advance s1) /\ Float32 s2 = Ret f2 (advance s2) /\
     (f1 = f2 <-> uint32 (peek 0 s1) mod 2 ^ 24 = uint32 (peek 0 s2) mod 2 ^ 24)).
Proof.
  split.
  - eexists _, _. split; [apply Float64_normal|]. split; [apply Float64_normal|].
    rewrite !land_low_bits by lia. split; [|now intros ->].
    apply normal_inj; [lia | |];
      (rewrite Z.abs_eq; apply Z.mod_pos_bound; lia).
  - eexists _, _. split; [apply Float32_normal|]. split; [apply Float32_normal|].
    rewrite !land_low_bits by lia. split; [|now intros ->].
    apply normal_inj; [lia | |];
      (rewrite Z.abs_eq; apply Z.mod_pos_bound; lia).
Qed.

(** ** Jitter with a factor that is not a number *)



(** ** Every arrangement can come out of Shuffle *)

Lemma bounded_draw_exact fuel n j src :
  0 <= j < n -> n <= maxInt64 -> peek 0 src = 2 * j ->
  bounded_draw fuel n src = Ret j (advance src).
Proof.
  intros Hj Hn Hw. unfold bounded_draw. rewrite maxInt64_eq in Hn.
  destruct (maxInt32 <=? n) eqn:Ew.
  - assert (HS : mkSampler Int63n Int63 raw63 63 ∈ samplers)
      by (unfold samplers; apply elem_of_cons; right; apply elem_of_cons; now left).
    assert (Hr : raw63 (peek 0 src) = j).
    { rewrite Hw, raw63_eq, uint64_id by lia.
      rewrite Z.mul_comm. apply Z.div_mul. lia. }
    assert (Hb : 0 < n <= max_raw (mkSampler Int63n Int63 raw63 63))
      by (unfold max_raw; cbn [raw_bits]; lia).
    pose proof (threshold_bounds _ n Hb) as (Ht & _).
    assert (Hacc : raw_value (mkSampler Int63n Int63 raw63 63) (peek 0 src)
                   < threshold (mkSampler Int63n Int63 raw63 63) n)
      by (cbn [raw_value]; rewrite Hr; lia).
    pose proof (sampler_first_draw _ fuel n src HS Hb (or_intror Hacc)) as Hfd.
    cbn [run_sampler raw_value] in Hfd.
    rewrite Hfd, Hr. now rewrite Z.mod_small by lia.
  - apply Z.leb_gt in Ew. rewrite maxInt32_eq in Ew.
    assert (HS : mkSampler Int31n Int31 raw31 31 ∈ samplers)
      by (unfold samplers; apply elem_of_cons; now left).
    assert (Hr : raw31 (peek 0 src) = j).
    { rewrite Hw, raw31_eq, uint32_id by lia.
      rewrite Z.mul_comm. apply Z.div_mul. lia. }
    assert (Hb : 0 < n <= max_raw (mkSampler Int31n Int31 raw31 31))
      by (unfold max_raw; cbn [raw_bits]; lia).
    pose proof (threshold_bounds _ n Hb) as (Ht & _).
    assert (Hacc : raw_value (mkSampler Int31n Int31 raw31 31) (peek 0 src)
                   < threshold (mkSampler Int31n Int31 raw31 31) n)
      by (cbn [raw_value]; rewrite Hr; lia).
    pose proof (sampler_first_draw _ fuel n src HS Hb (or_intror Hacc)) as Hfd.
    cbn [run_sampler raw_value] in Hfd.
    rewrite Hfd, Hr. now rewrite Z.mod_small by lia.
Qed.

Section ShuffleReach.
Context {E : Type}.
Implicit Types s t : list E.

Lemma prefix_Permutation n s t :
  t ≡ₚ s -> drop n t = drop n s -> take n t ≡ₚ take n s.
Proof.
  intros Hp Hd.
  rewrite <- (take_drop n t), <- (take_drop n s), Hd in Hp.
  now apply Permutation_app_inv_r in Hp.
Qed.

Lemma swap_lookup s (i j : nat) x y src :
  s !! j = Some x -> s !! i = Some y ->
  swap s (Z.of_nat i) (Z.of_nat j) src = Ret (<[j := y]> (<[i := x]> s)) src.
Proof.
  intros Hx Hy. unfold swap, index.
  destruct (Z.of_nat i <? 0) eqn:Ei; [apply Z.ltb_lt in Ei; lia|].
  destruct (Z.of_nat j <? 0) eqn:Ej; [apply Z.ltb_lt in Ej; lia|].
  now rewrite !Nat2Z.id, Hx, Hy.
Qed.

Lemma fisher_yates_reaches fuel : forall (i : nat) s t,
  (i < length s \/ i = 0)%nat -> Z.of_nat i + 1 <= maxInt64 ->
  t ≡ₚ s -> drop (S i) t = drop (S i) s ->
  exists ws, length ws = i /\
    forall src, (forall k, (k < i)%nat -> peek k src = nth k ws 0) ->
      fisher_yates fuel i s src = Ret t (skip i src).
Proof.
  induction i as [|i IH]; intros s t Hi Hmax Hp Hd.
  - exists []. split; [reflexivity|]. intros src _. cbn [fisher_yates].
    rewrite skip_0. unfold mret, M_ret. f_equal.
    pose proof (prefix_Permutation 1 s t Hp Hd) as H1.
    rewrite <- (take_drop 1 s), <- (take_drop 1 t), Hd. f_equal.
    destruct s as [|x s]; destruct t as [|y t]; cbn [take] in *.
    + reflexivity.
    + apply Permutation_length in H1. discriminate.
    + apply Permutation_length in H1. discriminate.
    + rewrite !take_0 in H1. symmetry. now apply Permutation_singleton_l in H1.
  - destruct Hi as [Hi|Hi]; [|lia].
    pose proof (Permutation_length Hp) as Hlen.
    destruct (lookup_lt_is_Some_2 t (S i) ltac:(lia)) as [x Hx].
    destruct (lookup_lt_is_Some_2 s (S i) ltac:(lia)) as [y Hy].
    pose proof (prefix_Permutation (S (S i)) s t Hp Hd) as Hpre.
    assert (Hin : x ∈ take (S (S i)) s).
    { rewrite <- Hpre. apply list_elem_of_lookup. exists (S i).
      apply lookup_take_Some. split; [exact Hx | lia]. }
    apply list_elem_of_lookup in Hin as [j Hj].
    apply lookup_take_Some in Hj as [Hj Hjlt].
    set (s1 := <[j := y]> (<[S i := x]> s)).
    assert (Hl1 : length s1 = length s) by (unfold s1; now rewrite !length_insert).
    assert (Hp1 : t ≡ₚ s1).
    { rewrite Hp. symmetry. unfold s1. now apply Permutation_insert_swap. }
    assert (Hx1 : s1 !! S i = Some x).
    { unfold s1. destruct (decide (j = S i)) as [->|Hne].
      - rewrite list_lookup_insert_eq by (rewrite length_insert; lia). congruence.
      - rewrite list_lookup_insert_ne by exact Hne.
        apply list_lookup_insert_eq. lia. }
    assert (Hd1 : drop (S i) t = drop (S i) s1).
    { rewrite (drop_S t x (S i) Hx), (drop_S s1 x (S i) Hx1). f_equal.
      unfold s1. rewrite !drop_insert_lt by lia. exact Hd. }
    destruct (IH s1 t ltac:(lia) ltac:(lia) Hp1 Hd1) as (ws & Hws & Hrun).
    exists (2 * Z.of_nat j :: ws). split; [cbn [length]; lia|].
    intros src Hsrc. cbn [fisher_yates].
    erewrite bind_Ret.
    2:{ apply (bounded_draw_exact fuel _ (Z.of_nat j)); [lia | lia |].
        apply (Hsrc 0%nat). lia. }
    erewrite bind_Ret by (apply swap_lookup; eassumption).
    fold s1. rewrite Hrun, skip_advance; [reflexivity|].
    intros k Hk. rewrite peek_advance. apply (Hsrc (S k)). lia.
Qed.
End ShuffleReach.

(** X12. [Shuffle] can produce every arrangement: for every slice [s] and
    every permutation [t] of it there are [len(s) - 1] words on which
    [Shuffle] turns [s] into [t], with no redraw. *)
Theorem Shuffle_reaches_every_permutation {E : Type} (fuel : nat) (s t : list E) :
  Z.of_nat (length s) <= maxInt64 -> t ≡ₚ s ->
  exists ws, length ws = (length s - 1)%nat /\
    Shuffle fuel s (list_source ws)
    = Ret t (skip (length s - 1) (list_source ws)).
Proof.
  intros Hl Hp. pose proof maxInt64_eq as Hmax.
  pose proof (Permutation_length Hp) as Hlen.
  destruct (fisher_yates_reaches fuel (length s - 1) s t) as (ws & Hws & Hrun);
    [lia | lia | exact Hp | |].
  { rewrite !drop_ge by lia. reflexivity. }
  exists ws. split; [exact Hws|].
  rewrite Shuffle_refines by exact Hl. apply Hrun.
  intros k _. reflexivity.
Qed.

Lemma Shuffle_reaches_every_permutation_witness :
  Z.of_nat (length [1; 2; 3]) <= maxInt64 /\ [3; 1; 2] ≡ₚ [1; 2; 3] /\
  exists ws, length ws = 2%nat /\
    Shuffle 0 [1; 2; 3] (list_source ws) = Ret [3; 1; 2] (skip 2 (list_source ws)).
Proof.
  assert (Hl : Z.of_nat (length [1; 2; 3]) <= maxInt64) by (vm_compute; discriminate).
  assert (Hp : [3; 1; 2] ≡ₚ [1; 2; 3]).
  { apply (Permutation_cons_app [1; 2] [] 3). reflexivity. }
  split; [exact Hl|]. split; [exact Hp|].
  exact (Shuffle_reaches_every_permutation 0 [1; 2; 3] [3; 1; 2] Hl Hp).
Defined.

(** ** The floats the generators return are normal numbers *)

Lemma normal_classify prec emax x e :
  0 < prec -> 0 <= x < 2 ^ prec -> 2 - emax <= e <= emax - prec ->
  valid_binary prec emax (normal prec x e) = true /\
  (SFclassify prec (normal prec x e) = FloatClass.PZero \/
   SFclassify prec (normal prec x e) = FloatClass.PNormal).
Proof.
  intros Hp Hx He. destruct x as [|m|m]; [split; [reflexivity | now left] | | lia].
  destruct (normal_mantissa prec emax Hp m e ltac:(lia) He) as (_ & _ & Hd & Hc & Hb).
  cbn [normal valid_binary SFclassify]. unfold bounded.
  apply Z.leb_le in Hb. rewrite Hc, Hb, Hd, Z.eqb_refl. split; [reflexivity | now right].
Qed.

(** X13. The floats [Float64] and [Float32] return are well-formed values
    of their format and are either [+0] or normal numbers: never a negative
    zero, a subnormal, an infinity or a NaN. *)
Theorem float_generators_normal (s : Source) :
  (exists f, Float64 s = Ret f (advance s) /\ valid_binary 53 1024 f = true /\
             (SFclassify 53 f = FloatClass.PZero \/ SFclassify 53 f = FloatClass.PNormal)) /\
  (exists f, Float32 s = Ret f (advance s) /\ valid_binary 24 128 f = true /\
             (SFclassify 24 f = FloatClass.PZero \/ SFclassify 24 f = FloatClass.PNormal)).
Proof.
  split.
  - eexists. split; [apply Float64_normal|].
    apply normal_classify; [lia | apply land_mask; lia | lia].
  - eexists. split; [apply Float32_normal|].
    apply normal_classify; [lia | apply land_mask; lia | lia].
Qed.
